(** * Stock Insights: data-acquisition core

    A shallow embedding of the TypeScript services of the stock-insights
    application and the properties its specification states about them:

    - [Dispatcher]: the request queue of [AlphaVantageService]
      ([queueRequest], [processQueue], [delay]) on a virtual clock;
    - [Fetcher]: [getDailyTimeSeries] with the Supabase cache
      ([getCachedStockData], [cacheStockData]);
    - [Insights]: [StockInsightsService] over IEEE-754 binary64 numbers;
    - [Symbols]: [validateSymbol];
    - [Card]: [loadStockData] of the stock card and what the card renders;
    - [Config]: [getRequiredEnv] and [loadConfig];
    - [Watchlist]: [addUserStock] and [removeUserStock] over the table
      [user_stocks] of the schema;
    - [AddStock]: [handleSubmit] and [handleAddStock] of the form. *)

From Stdlib Require Import ZArith NArith List Lia Bool Ascii String.
From Stdlib Require Import Floats.
From stdpp Require Import base list gmap strings pretty.

Set Default Proof Using "Type".
Set Warnings "-inexact-float".

(** ** The rate-limited dispatcher

    JavaScript runs [processQueue] as a coroutine on a single-threaded event
    loop: it executes until its next [await] and is resumed by the event (the
    settlement of the request's promise, or the timer of [delay]) it waits
    for.  The state below holds the two fields of the class, the place where
    the coroutine is suspended, the promises handed out by [queueRequest], a
    virtual clock in milliseconds, and two logs: the provider calls (which
    job was invoked, and when) and the times at which the jobs were
    submitted.  A job's promise settles a finite time after the job is
    invoked, and timers fire on time. *)
Module Dispatcher.

(** [private readonly minRequestInterval = 12000]. *)
Definition minRequestInterval : N := 12000.

Section Queue.
Context {T E : Type}.

(** What a job does: its promise fulfils with a value or rejects with an
    error. *)
Inductive Outcome : Type :=
| Returns (v : T)
| Throws (e : E).

(** [requestFn : () => Promise<T>].  On the virtual clock a call of it
    settles [latency] milliseconds after it was made, with [outcome]. *)
Record Request : Type := mkRequest { latency : N; outcome : Outcome }.

Inductive Promise : Type :=
| Pending
| Fulfilled (v : T)
| RejectedWith (e : E).

Definition settled (o : Outcome) : Promise :=
  match o with
  | Returns v => Fulfilled v
  | Throws e => RejectedWith e
  end.

(** The closure [queueRequest] pushes: it captures [requestFn] and the
    [resolve]/[reject] pair of the promise created for this call, named here
    by the promise's index in the store. *)
Record Job : Type := mkJob { requestFn : Request; ticket : nat }.

(** Where [processQueue] is suspended. *)
Inductive Suspension : Type :=
| Idle
| AwaitRequest (job : Job) (wake : N)
| AwaitDelay (wake : N).

Record State : Type := mkState {
  requestQueue : list Job;
  isProcessingQueue : bool;
  suspended : Suspension;
  promises : list Promise;
  clock : N;
  calls : list (Job * N);
  arrivals : list N
}.

Definition init : State :=
  {| requestQueue := []; isProcessingQueue := false; suspended := Idle;
     promises := []; clock := 0; calls := []; arrivals := [] |}.

(** [resolve(result)] / [reject(error)]: a promise settles once; a later
    call on a settled promise does nothing. *)
Definition settle (p : nat) (o : Outcome) (ps : list Promise) : list Promise :=
  match ps !! p with
  | Some Pending => <[p := settled o]> ps
  | _ => ps
  end.

(** The head of the [while] loop of [processQueue]: with an empty queue the
    loop ends and the flag is cleared; otherwise the head job is shifted off
    and invoked, and the coroutine waits for it. *)
Definition loop (s : State) : State :=
  match requestQueue s with
  | [] =>
      {| requestQueue := []; isProcessingQueue := false; suspended := Idle;
         promises := promises s; clock := clock s; calls := calls s;
         arrivals := arrivals s |}
  | request :: rest =>
      {| requestQueue := rest; isProcessingQueue := isProcessingQueue s;
         suspended := AwaitRequest request (clock s + latency (requestFn request));
         promises := promises s; clock := clock s;
         calls := calls s ++ [(request, clock s)];
         arrivals := arrivals s |}
  end.

Definition processQueue (s : State) : State :=
  if isProcessingQueue s || (length (requestQueue s) =? 0)%nat then s
  else
    loop {| requestQueue := requestQueue s; isProcessingQueue := true;
            suspended := suspended s; promises := promises s;
            clock := clock s; calls := calls s; arrivals := arrivals s |}.

(** [queueRequest(requestFn)]: creates the promise, pushes the closure,
    calls [processQueue] and returns the promise. *)
Definition queueRequest (r : Request) (s : State) : nat * State :=
  let p := length (promises s) in
  (p, processQueue
        {| requestQueue := requestQueue s ++ [{| requestFn := r; ticket := p |}];
           isProcessingQueue := isProcessingQueue s;
           suspended := suspended s;
           promises := promises s ++ [Pending];
           clock := clock s; calls := calls s;
           arrivals := arrivals s ++ [clock s] |}).

(** The continuation of [await request()]: the closure has settled its
    promise; with more jobs queued the coroutine sleeps for
    [minRequestInterval], otherwise it goes round the loop at once. *)
Definition afterRequest (job : Job) (s : State) : State :=
  let s' :=
    {| requestQueue := requestQueue s; isProcessingQueue := isProcessingQueue s;
       suspended := suspended s;
       promises := settle (ticket job) (outcome (requestFn job)) (promises s);
       clock := clock s; calls := calls s; arrivals := arrivals s |} in
  if (0 <? length (requestQueue s'))%nat then
    {| requestQueue := requestQueue s'; isProcessingQueue := isProcessingQueue s';
       suspended := AwaitDelay (clock s' + minRequestInterval);
       promises := promises s'; clock := clock s'; calls := calls s';
       arrivals := arrivals s' |}
  else loop s'.

Definition at_time (t : N) (s : State) : State :=
  {| requestQueue := requestQueue s; isProcessingQueue := isProcessingQueue s;
     suspended := suspended s; promises := promises s;
     clock := t; calls := calls s; arrivals := arrivals s |}.

(** The event the coroutine waits for, when there is one. *)
Definition wakeup (s : State) : option N :=
  match suspended s with
  | Idle => None
  | AwaitRequest _ wake => Some wake
  | AwaitDelay wake => Some wake
  end.

(** The event loop delivers that event. *)
Definition fire (s : State) : State :=
  match suspended s with
  | Idle => s
  | AwaitRequest job wake => afterRequest job (at_time wake s)
  | AwaitDelay wake => loop (at_time wake s)
  end.

(** Events still to come: two per queued job, and what the suspension
    itself stands for. *)
Definition events (s : State) : nat :=
  2 * length (requestQueue s) +
  match suspended s with Idle => 0 | AwaitRequest _ _ => 2 | AwaitDelay _ => 1 end.

Fixpoint run_until (fuel : nat) (t : N) (s : State) : State :=
  match fuel with
  | O => s
  | S fuel' =>
      match wakeup s with
      | Some wake =>
          if (wake <=? t)%N then run_until fuel' t (fire s) else at_time t s
      | None => at_time t s
      end
  end.

(** The clock advances by [d] milliseconds; every event due by then is
    delivered, in order. *)
Definition elapse (d : N) (s : State) : State :=
  run_until (S (events s)) (clock s + d) s.

(** [await p]: the event loop runs until promise [p] has settled. *)
Definition is_pending (p : nat) (s : State) : bool :=
  match promises s !! p with
  | Some Pending => true
  | _ => false
  end.

Fixpoint run_await (fuel : nat) (p : nat) (s : State) : State :=
  match fuel with
  | O => s
  | S fuel' =>
      if is_pending p s then
        match wakeup s with
        | Some _ => run_await fuel' p (fire s)
        | None => s
        end
      else s
  end.

Definition await (p : nat) (s : State) : State :=
  run_await (S (events s)) p s.

(** What callers do to the dispatcher: submit a job now, or let time pass. *)
Inductive Action : Type :=
| Submit (r : Request)
| Elapse (d : N).

Definition act (a : Action) (s : State) : State :=
  match a with
  | Submit r => snd (queueRequest r s)
  | Elapse d => elapse d s
  end.

Definition exec (acts : list Action) (s : State) : State :=
  fold_left (fun s a => act a s) acts s.

Fixpoint submissions (acts : list Action) : list Request :=
  match acts with
  | [] => []
  | Submit r :: acts' => r :: submissions acts'
  | Elapse _ :: acts' => submissions acts'
  end.


(** All of [rs] submitted at once. *)
Definition submit_all (rs : list Request) (s : State) : State :=
  exec (map Submit rs) s.

(** *** Quantities the statements are written with *)

(** The job whose promise the coroutine is waiting for. *)
Definition inflight (s : State) : list Job :=
  match suspended s with
  | AwaitRequest job _ => [job]
  | _ => []
  end.

(** Requests numbered in submission order from [n]. *)
Fixpoint tickets_from (n : nat) (rs : list Request) : list Job :=
  match rs with
  | [] => []
  | r :: rs' => {| requestFn := r; ticket := n |} :: tickets_from (S n) rs'
  end.

Definition outcomes (rs : list Request) : list Promise :=
  map (fun r => settled (outcome r)) rs.

(** The state agrees with the requests [rs] submitted so far, of which the
    first [n] have settled. *)
Definition consistent (rs : list Request) (n : nat) (s : State) : Prop :=
  n <= length rs /\
  inflight s ++ requestQueue s = tickets_from n (drop n rs) /\
  promises s = outcomes (take n rs) ++ replicate (length rs - n) Pending /\
  map fst (calls s) = tickets_from 0 (take (n + length (inflight s)) rs) /\
  (isProcessingQueue s = false <-> suspended s = Idle) /\
  (suspended s = Idle -> requestQueue s = []).

(** Time the queued jobs take, each after its delay. *)
Fixpoint backlog_time (q : list Job) : N :=
  match q with
  | [] => 0
  | job :: q' => minRequestInterval + latency (requestFn job) + backlog_time q'
  end.

(** When the last job of the present backlog settles. *)
Definition finish (s : State) : N :=
  match suspended s with
  | Idle => clock s
  | AwaitRequest _ wake => wake + backlog_time (requestQueue s)
  | AwaitDelay wake =>
      match requestQueue s with
      | [] => wake
      | job :: q' => wake + latency (requestFn job) + backlog_time q'
      end
  end.

(** Time passes until the backlog is done. *)
Definition drain (s : State) : State :=
  elapse (finish s - clock s) s.

(** The calls a queue makes when its first job is invoked at [t]. *)
Fixpoint queue_calls (t : N) (q : list Job) : list (Job * N) :=
  match q with
  | [] => []
  | job :: q' =>
      (job, t)
        :: queue_calls (t + latency (requestFn job) + minRequestInterval) q'
  end.

(** The same for requests numbered from [n]. *)
Fixpoint burst_calls (t : N) (n : nat) (rs : list Request) : list (Job * N) :=
  match rs with
  | [] => []
  | r :: rs' =>
      ({| requestFn := r; ticket := n |}, t)
        :: burst_calls (t + latency r + minRequestInterval) (S n) rs'
  end.

(** The calls as tickets and times. *)
Definition timeline (s : State) : list (nat * N) :=
  map (fun call => (ticket (fst call), snd call)) (calls s).

(** When a call settles. *)
Definition settles_at (call : Job * N) : N :=
  snd call + latency (requestFn (fst call)).

(** Call [b] follows call [a] properly: not before [a] has settled, and a
    full interval after that unless [b] is invoked at the very moment its job
    is submitted. *)
Definition spaced (s : State) (a b : Job * N) : Prop :=
  (settles_at a <= snd b)%N /\
  ((settles_at a + minRequestInterval <= snd b)%N \/
   arrivals s !! ticket (fst b) = Some (snd b)).

(** [R] holds between every element and its successor. *)
Definition adjacent {A} (R : A -> A -> Prop) (l : list A) : Prop :=
  forall i x y, l !! i = Some x -> l !! S i = Some y -> R x y.

(** The clock, the suspension and the logs agree. *)
Definition timed (s : State) : Prop :=
  length (arrivals s) = length (promises s) /\
  adjacent (spaced s) (calls s) /\
  match suspended s with
  | Idle => forall a, last (calls s) = Some a -> (settles_at a <= clock s)%N
  | AwaitRequest job wake =>
      (clock s <= wake)%N /\
      exists ta, last (calls s) = Some (job, ta) /\
                 wake = (ta + latency (requestFn job))%N
  | AwaitDelay wake =>
      (clock s <= wake)%N /\
      exists a, last (calls s) = Some a /\
                wake = (settles_at a + minRequestInterval)%N
  end.

(** The same schedule with another outcome for its [k]-th submission. *)
Fixpoint with_outcome (k : nat) (o : Outcome) (acts : list Action)
  : list Action :=
  match acts with
  | [] => []
  | Elapse d :: acts' => Elapse d :: with_outcome k o acts'
  | Submit r :: acts' =>
      match k with
      | O => Submit {| latency := latency r; outcome := o |} :: acts'
      | S k' => Submit r :: with_outcome k' o acts'
      end
  end.

End Queue.

Arguments Outcome : clear implicits.
Arguments Request : clear implicits.
Arguments Promise : clear implicits.
Arguments Job : clear implicits.
Arguments Suspension : clear implicits.
Arguments State : clear implicits.
Arguments Action : clear implicits.

(** *** Forgetting what the jobs return

    The same dispatcher for jobs of which only the latency is kept: what is
    left of a state when results and errors are forgotten. *)
Definition forget_request {T E} (r : Request T E) : Request unit unit :=
  {| latency := latency r; outcome := Returns () |}.

Definition forget_job {T E} (job : Job T E) : Job unit unit :=
  {| requestFn := forget_request (requestFn job); ticket := ticket job |}.

Definition forget_promise {T E} (p : Promise T E) : Promise unit unit :=
  match p with
  | Pending => Pending
  | _ => Fulfilled ()
  end.

Definition forget_suspension {T E} (sus : Suspension T E)
  : Suspension unit unit :=
  match sus with
  | Idle => Idle
  | AwaitRequest job wake => AwaitRequest (forget_job job) wake
  | AwaitDelay wake => AwaitDelay wake
  end.

Definition forget {T E} (s : State T E) : State unit unit :=
  {| requestQueue := map forget_job (requestQueue s);
     isProcessingQueue := isProcessingQueue s;
     suspended := forget_suspension (suspended s);
     promises := map forget_promise (promises s);
     clock := clock s;
     calls := map (fun call => (forget_job (fst call), snd call)) (calls s);
     arrivals := arrivals s |}.

Definition forget_action {T E} (a : Action T E) : Action unit unit :=
  match a with
  | Submit r => Submit (forget_request r)
  | Elapse d => Elapse d
  end.

End Dispatcher.

(** Three jobs submitted together; the second fails. *)
Definition three_jobs : list (Dispatcher.Request nat string) :=
  [ {| Dispatcher.latency := 900; Dispatcher.outcome := Dispatcher.Returns 1 |};
    {| Dispatcher.latency := 400;
       Dispatcher.outcome := Dispatcher.Throws "HTTP error! status: 500" |};
    {| Dispatcher.latency := 700; Dispatcher.outcome := Dispatcher.Returns 3 |} ].

(** The same jobs, the third submitted half a second after the others. *)
Definition late_arrival : list (Dispatcher.Action nat string) :=
  match three_jobs with
  | [first; second; third] =>
      [Dispatcher.Submit first; Dispatcher.Submit second;
       Dispatcher.Elapse 500; Dispatcher.Submit third]
  | _ => []
  end.

(** A request that takes one second and succeeds. *)
Definition quick_request : Dispatcher.Request unit unit :=
  {| Dispatcher.latency := 1000; Dispatcher.outcome := Dispatcher.Returns () |}.


(** *** How long a burst takes *)

(** The latencies of the requests, added up. *)
Definition total_latency {T E} (rs : list (Dispatcher.Request T E)) : N :=
  fold_right (fun r acc => (Dispatcher.latency r + acc)%N) 0%N rs.

(** The sum of the latencies and one [minRequestInterval] between each two
    jobs. *)
Definition burst_duration {T E} (rs : list (Dispatcher.Request T E)) : N :=
  (total_latency rs
   + N.of_nat (length rs - 1) * Dispatcher.minRequestInterval)%N.

(** Six one-second jobs submitted together. *)
Definition six_jobs : list (Dispatcher.Request unit unit) :=
  replicate 6 quick_request.


(** ** JavaScript numbers

    A [number] is an IEEE-754 binary64 value: Rocq's primitive [float], whose
    [+], [-], [*], [/] and comparisons are the machine's, as JavaScript's
    are. *)
Module Js.

#[local] Open Scope float_scope.

(** [ToBoolean] on a number: [0], [-0] and [NaN] are falsy. *)
Definition truthy (x : float) : bool := negb (is_zero x || is_nan x).

Definition is_neg_zero (x : float) : bool := is_zero x && get_sign x.
Definition is_pos_zero (x : float) : bool := is_zero x && negb (get_sign x).

(** The integer [Math.round] picks for the finite number [(-1)^s * m * 2^e]
    with [e < 0]: the floor of its sum with one half, so that ties go towards
    positive infinity. *)
Definition round_half_up (s : bool) (m : positive) (e : Z) : Z :=
  ((2 * cond_Zopp s (Zpos m) + 2 ^ (- e)) / 2 ^ (1 - e))%Z.

(** [Math.round]: NaN, the infinities, the zeros and the integers are
    returned as they are; a number in [[-0.5, 0)] gives [-0]. *)
Definition Math_round (x : float) : float :=
  match Prim2SF x with
  | S754_finite s m e =>
      if (0 <=? e)%Z then x
      else
        let n := round_half_up s m e in
        if (n =? 0)%Z then (if s then neg_zero else zero)
        else if (n <? 0)%Z then - of_uint63 (Uint63.of_Z (- n))
        else of_uint63 (Uint63.of_Z n)
  | _ => x
  end.

(** [Math.max(...xs)]: NaN as soon as an argument is NaN; otherwise the
    greatest, starting from [-Infinity], with [+0] above [-0]. *)
Definition max_step (highest number : float) : float :=
  if (highest <? number) || (is_pos_zero number && is_neg_zero highest)
  then number else highest.

Definition Math_max (xs : list float) : float :=
  if existsb is_nan xs then nan else fold_left max_step xs neg_infinity.

(** [Math.min(...xs)], likewise from [+Infinity], with [-0] below [+0]. *)
Definition min_step (lowest number : float) : float :=
  if (number <? lowest) || (is_neg_zero number && is_pos_zero lowest)
  then number else lowest.

Definition Math_min (xs : list float) : float :=
  if existsb is_nan xs then nan else fold_left min_step xs infinity.

(** A number that is neither NaN nor an infinity. *)
Definition isFinite (x : float) : bool := negb (is_nan x || is_infinity x).

(** A price: [x > 0 && isFinite(x)]. *)
Definition positive (x : float) : bool := (0 <? x) && (x <? infinity).

(** A specification float of the finite, non-zero kind. *)
Definition SFfinite (x : spec_float) : Prop :=
  match x with
  | S754_finite _ _ _ => True
  | _ => False
  end.

(** A specification float that is a zero or NaN. *)
Definition SFzero_or_nan (x : spec_float) : Prop :=
  match x with
  | S754_zero _ | S754_nan => True
  | _ => False
  end.

(** What code in a [try]-less function produces: a value, or a thrown
    [Error] with its message. *)
Inductive Result (A : Type) : Type :=
| Ok (a : A)
| Throw (message : string).
Arguments Ok {A} a.
Arguments Throw {A} message.

#[global] Instance result_bind : MBind Result := fun A B k c =>
  match c with
  | Ok a => k a
  | Throw m => Throw m
  end.

(** Reading a property of [o], which throws a [TypeError] when [o] is
    [undefined]. *)
Definition prop {A B} (o : option A) (field : A -> B) : Result B :=
  match o with
  | Some a => Ok (field a)
  | None => Throw "TypeError: Cannot read properties of undefined"
  end.

End Js.

(** ** The insight engine ([StockInsightsService]) *)
Module Insights.
Import Js.
#[local] Open Scope float_scope.

(** [NormalizedDailyData]. *)
Record NormalizedDailyData : Type := {
  date : string;
  open : float;
  high : float;
  low : float;
  close : float;
  volume : float
}.

Inductive Direction : Type := up | down | flat.

(** [{ absolute: number; percentage: number }]. *)
Record DayChange : Type := { absolute : float; percentage : float }.

(** [{ direction; percentage: number }]; the second field is [percentage]
    in the source. *)
Record Trend : Type := { direction : Direction; trendPercentage : float }.

(** [{ high52Week?: number; low52Week?: number }]. *)
Record HighLow : Type := { high52Week : option float; low52Week : option float }.

(** [private roundToTwo(num)]. *)
Definition roundToTwo (num : float) : float := Math_round (num * 100) / 100.

(** [private calculateDayChange(latest, previous?)]. *)
Definition calculateDayChange
    (latest : option NormalizedDailyData)
    (previous : option NormalizedDailyData) : Result DayChange :=
  match previous with
  | None => Ok {| absolute := 0; percentage := 0 |}
  | Some previous =>
      latest_close ← prop latest close;
      let absolute := latest_close - close previous in
      let percentage := (absolute / close previous) * 100 in
      Ok {| absolute := roundToTwo absolute; percentage := roundToTwo percentage |}
  end.

(** [dailyData[days]?.close || dailyData[dailyData.length - 1].close]. *)
Definition pastPriceOf (dailyData : list NormalizedDailyData) (days : nat)
  : Result float :=
  match dailyData !! days with
  | Some d =>
      if truthy (close d) then Ok (close d)
      else prop (dailyData !! (length dailyData - 1)%nat) close
  | None => prop (dailyData !! (length dailyData - 1)%nat) close
  end.

(** [private calculateTrend(dailyData, days)]. *)
Definition calculateTrend (dailyData : list NormalizedDailyData) (days : nat)
  : Result Trend :=
  if (length dailyData <? days + 1)%nat then
    Ok {| direction := flat; trendPercentage := 0 |}
  else
    currentPrice ← prop (dailyData !! 0%nat) close;
    pastPrice ← pastPriceOf dailyData days;
    let change := currentPrice - pastPrice in
    let percentage := (change / pastPrice) * 100 in
    let direction :=
      if 0.5 <? percentage then up
      else if percentage <? -0.5 then down
      else flat in
    Ok {| direction := direction; trendPercentage := roundToTwo percentage |}.

(** [private calculate52WeekHighLow(dailyData)]. *)
Definition calculate52WeekHighLow (dailyData : list NormalizedDailyData) : HighLow :=
  let tradingDays := Nat.min 252 (length dailyData) in
  if (tradingDays <? 30)%nat then
    {| high52Week := None; low52Week := None |}
  else
    let relevantData := take tradingDays dailyData in
    let high52Week := Math_max (map high relevantData) in
    let low52Week := Math_min (map low relevantData) in
    {| high52Week := Some (roundToTwo high52Week);
       low52Week := Some (roundToTwo low52Week) |}.

(** [StockInsights]; [insightsVolume] is the field [volume] of the source. *)
Record StockInsights : Type := {
  symbol : string;
  latestPrice : float;
  latestDate : string;
  dayChange : DayChange;
  trend7Day : Trend;
  trend30Day : Trend;
  insightsVolume : float;
  insightsHigh52Week : option float;
  insightsLow52Week : option float;
  peRatio : option float
}.

(** Modelled from the spec: [AlphaVantageOverview] is imported by the service
    but declared in no source file; it is the optional overview metadata, of
    which the engine reads the P/E ratio, a string when present. *)
Record AlphaVantageOverview : Type := { PERatio : option string }.

Section Engine.
(** The built-in [parseFloat]. *)
Context (parseFloat : string -> float).

(** [overview?.PERatio && overview.PERatio !== 'None'
      ? parseFloat(overview.PERatio) : undefined]. *)
Definition parsePERatio (overview : option AlphaVantageOverview) : option float :=
  match overview with
  | Some o =>
      match PERatio o with
      | Some pe =>
          if negb (String.eqb pe "") && negb (String.eqb pe "None")
          then Some (parseFloat pe) else None
      | None => None
      end
  | None => None
  end.

(** [calculateInsights(symbol, dailyData, overview?)]. *)
Definition calculateInsights (symbol : string)
    (dailyData : list NormalizedDailyData)
    (overview : option AlphaVantageOverview) : Result StockInsights :=
  if (length dailyData =? 0)%nat then
    Throw "No data available to calculate insights"
  else
    let latest := dailyData !! 0%nat in
    let previous := dailyData !! 1%nat in
    dayChange ← calculateDayChange latest previous;
    trend7Day ← calculateTrend dailyData 7;
    trend30Day ← calculateTrend dailyData 30;
    let hl := calculate52WeekHighLow dailyData in
    let peRatio := parsePERatio overview in
    latest_close ← prop latest close;
    latest_date ← prop latest date;
    latest_volume ← prop latest volume;
    Ok {| symbol := symbol;
          latestPrice := latest_close;
          latestDate := latest_date;
          dayChange := dayChange;
          trend7Day := trend7Day;
          trend30Day := trend30Day;
          insightsVolume := latest_volume;
          insightsHigh52Week := high52Week hl;
          insightsLow52Week := low52Week hl;
          peRatio := peRatio |}.

End Engine.

(** A day of which only the prices matter. *)
Definition day (h l c : float) : NormalizedDailyData :=
  {| date := ""; open := c; high := h; low := l; close := c; volume := 0 |}.

(** *** Series to run the engine on *)

(** [n] days at the same price. *)
Definition steady (n : nat) (price : float) : list NormalizedDailyData :=
  replicate n (day price price price).

(** Eight days, from 100.5 today back to 100 a week ago: a change of one
    half per cent over the window of 7. *)
Definition half_percent_week : list NormalizedDailyData :=
  day 100.5 100.5 100.5 :: steady 6 100.25 ++ [day 100 100 100].

(** Two prices, [2^1000] and [2^-1000], both positive and finite. *)
Definition overflow_pair : list NormalizedDailyData :=
  [day 0x1p1000 0x1p1000 0x1p1000; day 0x1p-1000 0x1p-1000 0x1p-1000].

(** The same two, a week apart. *)
Definition overflow_week : list NormalizedDailyData :=
  day 0x1p1000 0x1p1000 0x1p1000 :: steady 6 1 ++
  [day 0x1p-1000 0x1p-1000 0x1p-1000].

(** Thirty days with highs 101, 102, ... and lows 99, 98, ... *)
Definition thirty_days : list NormalizedDailyData :=
  map (fun k => day (100 + of_uint63 (Uint63.of_Z (Z.of_nat k))) (100 - of_uint63 (Uint63.of_Z (Z.of_nat k))) 100)
      (seq 1 30).

End Insights.

(** [thirty_days] after a day whose high did not parse. *)
Definition unparsed_month : list Insights.NormalizedDailyData :=
  Insights.day nan 99 100 :: Insights.thirty_days.

(** ** The cache-aside fetcher ([getDailyTimeSeries] and the Supabase
       cache behind it) *)
Module Fetcher.
Import Js.
#[local] Open Scope string_scope.

(** One entry of [TimeSeriesData]: the five fields, as the strings the
    provider sends. *)
Record RawDay : Type := {
  raw_open : string;
  raw_high : string;
  raw_low : string;
  raw_close : string;
  raw_volume : string
}.

(** [TimeSeriesData]: the entries of the object, in [Object.entries] order. *)
Definition TimeSeriesData : Type := list (string * RawDay).

(** [AlphaVantageResponse]: of ['Meta Data'] the two fields that are read. *)
Record AlphaVantageResponse : Type := {
  meta_symbol : string;
  meta_lastRefreshed : string;
  timeSeriesDaily : TimeSeriesData
}.

(** [StockDataResult]. *)
Record StockDataResult : Type := {
  symbol : string;
  lastRefreshed : string;
  dailyData : list Insights.NormalizedDailyData;
  fromCache : bool
}.

(** The body of a provider response, as [fetchDailyTimeSeries] inspects it. *)
Record Json : Type := {
  json_ErrorMessage : option string;
  json_Note : option string;
  json_data : option AlphaVantageResponse
}.

(** What [fetch(url)] gives: a rejection (with an [Error] and its message, or
    with some other value), or a response. *)
Inductive HttpReply : Type :=
| FetchRejects (error : option string)
| Response (ok : bool) (status : nat) (body : Json).

(** A row of [stock_data_cache]; the key [(symbol, data_type)] is unique. *)
Record CacheRow : Type := { data : AlphaVantageResponse; fetched_at : N }.

(** The [error] object of a Supabase reply. *)
Record PostgrestError : Type := { code : string; message : string }.

Inductive ConsoleLine : Type :=
| console_log (line : string)
| console_error (line : string).

(** Everything a read touches: the cache table, whether the Supabase client
    fails on a select or an upsert, the provider (latency and reply for a
    symbol), the dispatcher, whose clock is the wall clock, and the console. *)
Record World : Type := {
  stock_data_cache : gmap (string * string) CacheRow;
  selectFault : option PostgrestError;
  upsertFault : option PostgrestError;
  provider : string -> N * HttpReply;
  dispatcher : Dispatcher.State AlphaVantageResponse string;
  console : list ConsoleLine
}.

Definition now (w : World) : N := Dispatcher.clock (dispatcher w).

(** [async] code: it may change the world, and returns or throws. *)
Definition Async (A : Type) : Type := World -> Result A * World.

#[global] Instance async_ret : MRet Async := fun A a w => (Ok a, w).

#[global] Instance async_bind : MBind Async := fun A B k c w =>
  match c w with
  | (Ok a, w') => k a w'
  | (Throw m, w') => (Throw m, w')
  end.

Definition day_ms : N := 24 * 60 * 60 * 1000.

(** The dispatcher is in a state it can be in: one that agrees with some
    history of submissions. *)
Definition sane (w : World) : Prop :=
  exists rs n, Dispatcher.consistent rs n (dispatcher w).

Definition with_dispatcher
    (d : Dispatcher.State AlphaVantageResponse string) (w : World) : World :=
  {| stock_data_cache := stock_data_cache w; selectFault := selectFault w;
     upsertFault := upsertFault w; provider := provider w;
     dispatcher := d; console := console w |}.

Definition with_console (lines : list ConsoleLine) (w : World) : World :=
  {| stock_data_cache := stock_data_cache w; selectFault := selectFault w;
     upsertFault := upsertFault w; provider := provider w;
     dispatcher := dispatcher w; console := lines |}.

Definition with_cache (rows : gmap (string * string) CacheRow) (w : World)
  : World :=
  {| stock_data_cache := rows; selectFault := selectFault w;
     upsertFault := upsertFault w; provider := provider w;
     dispatcher := dispatcher w; console := console w |}.

Definition print (line : ConsoleLine) : Async unit := fun w =>
  (Ok (), with_console (console w ++ [line]) w).

Definition no_rows : PostgrestError :=
  {| code := "PGRST116";
     message := "JSON object requested, multiple (or no) rows returned" |}.

(** [.from('stock_data_cache').select('*').eq('symbol', s)
      .eq('data_type', t).gte('fetched_at', since).single()]. *)
Definition select_single (s t : string) (since : N)
  : Async (option CacheRow * option PostgrestError) := fun w =>
  match selectFault w with
  | Some err => (Ok (None, Some err), w)
  | None =>
      match stock_data_cache w !! (s, t) with
      | Some row =>
          if (since <=? fetched_at row)%N then (Ok (Some row, None), w)
          else (Ok (None, Some no_rows), w)
      | None => (Ok (None, Some no_rows), w)
      end
  end.

(** [.from('stock_data_cache').upsert(row, { onConflict: 'symbol,data_type' })]. *)
Definition upsert (s t : string) (row : CacheRow)
  : Async (option PostgrestError) := fun w =>
  match upsertFault w with
  | Some err => (Ok (Some err), w)
  | None =>
      (Ok None, with_cache (<[(s, t) := row]> (stock_data_cache w)) w)
  end.

Section Service.
(** The built-ins the services call on strings. *)
Context (toUpperCase : string -> string).
Context (parseFloat : string -> float).
(** [new Date(s).getTime()]. *)
Context (getTime : string -> float).

(** [supabaseService.getCachedStockData(symbol, dataType)].  [setHours]
    works on local time; the model takes a day without a change of the
    local UTC offset, where 24 local hours are 24 hours. *)
Definition getCachedStockData (symbol dataType : string)
  : Async (option AlphaVantageResponse) :=
  fun w =>
    let twentyFourHoursAgo := (now w - day_ms)%N in
    ('(row, error) ← select_single (toUpperCase symbol) dataType twentyFourHoursAgo;
     match error with
     | Some err =>
         if negb (String.eqb (code err) "PGRST116") then
           print (console_error ("Error fetching cached data: " ++ message err));;
           mret None
         else mret (data <$> row)
     | None => mret (data <$> row)
     end) w.

(** [supabaseService.cacheStockData(symbol, dataType, data)]. *)
Definition cacheStockData (symbol dataType : string) (d : AlphaVantageResponse)
  : Async unit :=
  fun w =>
    (error ← upsert (toUpperCase symbol) dataType
               {| data := d; fetched_at := now w |};
     match error with
     | Some err =>
         print (console_error ("Error caching stock data: " ++ message err))
     | None => mret ()
     end) w.

(** A string is truthy unless it is empty. *)
Definition present (field : option string) : option string :=
  match field with
  | Some "" => None
  | other => other
  end.

(** [private fetchDailyTimeSeries(symbol)]: what the promise settles with,
    given the provider's reply. *)
Definition fetchOutcome (symbol : string) (reply : HttpReply)
  : Dispatcher.Outcome AlphaVantageResponse string :=
  match reply with
  | FetchRejects (Some error) => Dispatcher.Throws error
  | FetchRejects None =>
      Dispatcher.Throws "Failed to fetch stock data from Alpha Vantage"
  | Response ok status body =>
      if negb ok then
        Dispatcher.Throws ("HTTP error! status: " ++ pretty status)
      else
        match present (json_ErrorMessage body) with
        | Some m => Dispatcher.Throws ("Alpha Vantage API error: " ++ m)
        | None =>
            match present (json_Note body) with
            | Some _ =>
                Dispatcher.Throws
                  ("API rate limit exceeded. Please wait a moment and try again."
                   ++ String (Ascii.ascii_of_nat 10) "Free tier: 5 calls/minute, 500 calls/day.")
            | None =>
                match json_data body with
                | None =>
                    Dispatcher.Throws
                      ("Invalid symbol or no data available for " ++ symbol)
                | Some d => Dispatcher.Returns d
                end
            end
        end
  end.

Definition fetchDailyTimeSeries (symbol : string) (w : World)
  : Dispatcher.Request AlphaVantageResponse string :=
  let '(latency, reply) := provider w (toUpperCase symbol) in
  {| Dispatcher.latency := latency;
     Dispatcher.outcome := fetchOutcome symbol reply |}.

(** [await this.queueRequest(requestFn)]: the job is queued and the caller
    resumes when its promise has settled. *)
Definition queueRequest
    (requestFn : World -> Dispatcher.Request AlphaVantageResponse string)
  : Async AlphaVantageResponse := fun w =>
  let '(p, d) := Dispatcher.queueRequest (requestFn w) (dispatcher w) in
  let d' := Dispatcher.await p d in
  let w' := with_dispatcher d' w in
  match Dispatcher.promises d' !! p with
  | Some (Dispatcher.Fulfilled v) => (Ok v, w')
  | Some (Dispatcher.RejectedWith e) => (Throw e, w')
  | _ => (Throw "the promise never settles", w')
  end.

(** The comparator of the sort: [new Date(b.date).getTime() -
    new Date(a.date).getTime()]. *)
Definition byDateDescending (a b : Insights.NormalizedDailyData) : float :=
  (getTime (Insights.date b) - getTime (Insights.date a))%float.

(** [Array.prototype.sort(comparefn)], which is stable: [a] stays before
    [b] unless [comparefn(a, b) > 0] (a NaN counts as [+0]). *)
Fixpoint insert_sorted {A} (comparefn : A -> A -> float) (a : A) (l : list A)
  : list A :=
  match l with
  | [] => [a]
  | b :: l' =>
      if (0 <? comparefn a b)%float then b :: insert_sorted comparefn a l'
      else a :: l
  end.

Definition sort {A} (comparefn : A -> A -> float) (l : list A) : list A :=
  fold_right (insert_sorted comparefn) [] l.

(** [private normalizeTimeSeriesData(timeSeries)]. *)
Definition normalizeTimeSeriesData (timeSeries : TimeSeriesData)
  : list Insights.NormalizedDailyData :=
  sort byDateDescending
    (map (fun '(date, values) =>
            {| Insights.date := date;
               Insights.open := parseFloat (raw_open values);
               Insights.high := parseFloat (raw_high values);
               Insights.low := parseFloat (raw_low values);
               Insights.close := parseFloat (raw_close values);
               Insights.volume := parseFloat (raw_volume values) |})
         timeSeries).

(** [getDailyTimeSeries(symbol)]. *)
Definition getDailyTimeSeries (symbol : string) : Async StockDataResult :=
  let dataType := "TIME_SERIES_DAILY" in
  cachedData ← getCachedStockData symbol dataType;
  match cachedData with
  | Some cachedData =>
      print (console_log ("Using cached data for " ++ symbol));;
      mret {| symbol := meta_symbol cachedData;
              lastRefreshed := meta_lastRefreshed cachedData;
              dailyData := normalizeTimeSeriesData (timeSeriesDaily cachedData);
              fromCache := true |}
  | None =>
      print (console_log
               ("Fetching fresh data for " ++ symbol ++ " from Alpha Vantage"));;
      d ← queueRequest (fetchDailyTimeSeries symbol);
      cacheStockData symbol dataType d;;
      mret {| symbol := meta_symbol d;
              lastRefreshed := meta_lastRefreshed d;
              dailyData := normalizeTimeSeriesData (timeSeriesDaily d);
              fromCache := false |}
  end.

End Service.

(** *** Worlds to run the fetcher in

    Stand-ins for the built-ins on the inputs used below: [parseFloat] on
    plain decimal numerals (the quotient of two exactly represented integers
    is the nearest binary64 number, as [parseFloat] gives), and for [getTime]
    the digits of an ISO date read as a number, which orders dates as their
    timestamps do. *)
Fixpoint digits (s : string) (acc : N * N) : N * N :=
  match s with
  | EmptyString => acc
  | String c rest =>
      let n := N_of_ascii c in
      if ((48 <=? n) && (n <=? 57))%N
      then digits rest (10 * fst acc + (n - 48), 10 * snd acc)%N
      else if (n =? 46)%N then digits rest (fst acc, 1%N)
      else digits rest acc
  end.

Definition float_of_N (n : N) : float := of_uint63 (Uint63.of_Z (Z.of_N n)).

Definition decimal (s : string) : float :=
  let '(numerator, scale) := digits s (0%N, 0%N) in
  (float_of_N numerator / float_of_N (N.max 1 scale))%float.

Definition date_number (s : string) : float :=
  float_of_N (fst (digits s (0%N, 0%N))).

Definition example_series : AlphaVantageResponse :=
  {| meta_symbol := "AAPL";
     meta_lastRefreshed := "2024-01-03";
     timeSeriesDaily :=
       [("2024-01-02",
         {| raw_open := "187.15"; raw_high := "188.44"; raw_low := "183.89";
            raw_close := "185.64"; raw_volume := "82488700" |});
        ("2024-01-03",
         {| raw_open := "184.22"; raw_high := "185.88"; raw_low := "183.43";
            raw_close := "184.25"; raw_volume := "58414500" |})] |}.

Definition example_provider (symbol : string) : N * HttpReply :=
  (800%N,
   Response true 200
     {| json_ErrorMessage := None; json_Note := None;
        json_data := Some example_series |}).

Definition example_key : string * string := ("AAPL", "TIME_SERIES_DAILY").

(** The clock of a dispatcher that has been idle for [t] milliseconds. *)
Definition idle_at (t : N) : Dispatcher.State AlphaVantageResponse string :=
  Dispatcher.elapse t Dispatcher.init.

Definition hour_ms : N := 60 * 60 * 1000.


(** The same row, read 25 hours later. *)
Definition world_stale : World :=
  {| stock_data_cache :=
       {[ example_key := {| data := example_series; fetched_at := 0 |} ]};
     selectFault := None; upsertFault := None;
     provider := example_provider;
     dispatcher := idle_at (25 * hour_ms); console := [] |}.


(** An empty cache that refuses writes (row-level security has no insert
    policy for the client's role). *)
Definition world_readonly : World :=
  {| stock_data_cache := ∅;
     selectFault := None;
     upsertFault :=
       Some {| code := "42501";
               message := "new row violates row-level security policy" |};
     provider := example_provider;
     dispatcher := idle_at (23 * hour_ms); console := [] |}.

End Fetcher.

(** A provider that answers every call with its rate-limit note, next to a
    series. *)
Definition throttled_provider (symbol : string) : N * Fetcher.HttpReply :=
  (300%N,
   Fetcher.Response true 200
     {| Fetcher.json_ErrorMessage := None;
        Fetcher.json_Note :=
          Some "Thank you for using Alpha Vantage! Our standard API rate limit is 25 requests per day."%string;
        Fetcher.json_data := Some Fetcher.example_series |}).

(** An empty cache in front of that provider. *)
Definition world_throttled : Fetcher.World :=
  {| Fetcher.stock_data_cache := ∅;
     Fetcher.selectFault := None; Fetcher.upsertFault := None;
     Fetcher.provider := throttled_provider;
     Fetcher.dispatcher := Fetcher.idle_at Fetcher.hour_ms;
     Fetcher.console := [] |}.

Definition rate_limit_message : string :=
  ("API rate limit exceeded. Please wait a moment and try again."
   ++ String (Ascii.ascii_of_nat 10) "Free tier: 5 calls/minute, 500 calls/day.")%string.



(** One read after the other, each awaited before the next begins. *)
Definition reads (toUpperCase : string -> string)
    (parseFloat getTime : string -> float) (symbols : list string)
    (w : Fetcher.World) : Fetcher.World :=
  fold_left
    (fun w symbol =>
       snd (Fetcher.getDailyTimeSeries toUpperCase parseFloat getTime symbol w))
    symbols w.

(** ** The stock card ([StockCard]) *)
Module Card.
Import Js.
#[local] Open Scope string_scope.

(** The four [useState] cells of the component. *)
Record CardState : Type := {
  insights : option Insights.StockInsights;
  loading : bool;
  error : string;
  fromCache : bool
}.


Section Component.
Context (toUpperCase : string -> string).
Context (parseFloat : string -> float).
Context (getTime : string -> float).

(** [loadStockData]: the cells once the function has run to its end, and
    the world it leaves.  Everything thrown in the [try] block is an
    [Error], whose message goes to [error]; [finally] clears [loading]. *)
Definition loadStockData (stock_symbol : string) (card : CardState)
  : Fetcher.World -> CardState * Fetcher.World := fun w =>
  let failed (message : string) :=
    {| insights := insights card; loading := false; error := message;
       fromCache := fromCache card |} in
  match Fetcher.getDailyTimeSeries toUpperCase parseFloat getTime
          stock_symbol w with
  | (Ok data, w') =>
      match Insights.calculateInsights parseFloat stock_symbol
              (Fetcher.dailyData data) None with
      | Ok calculatedInsights =>
          ({| insights := Some calculatedInsights; loading := false;
              error := ""; fromCache := Fetcher.fromCache data |}, w')
      | Throw message => (failed message, w')
      end
  | (Throw message, w') => (failed message, w')
  end.

End Component.

(** What the component renders: the spinner, the error with its retry
    button, nothing, or the insights. *)
Inductive View : Type :=
| Spinner
| ErrorPanel (message : string)
| Blank
| Panel (shown : Insights.StockInsights) (cached : bool).

Definition render (card : CardState) : View :=
  if loading card then Spinner
  else if negb (String.eqb (error card) "") then ErrorPanel (error card)
  else
    match insights card with
    | None => Blank
    | Some shown => Panel shown (fromCache card)
    end.

End Card.




(** ** Symbol validation ([validateSymbol]) *)
Module Symbols.

#[local] Open Scope string_scope.

(** A regular expression of the shape [/^[...]{atLeast,atMost}$/]: one
    character class, given by its ranges, repeated between the two bounds,
    anchored at both ends (no [m] flag: [$] is the end of the input). *)
Record Regex : Type := {
  ranges : list (ascii * ascii);
  atLeast : nat;
  atMost : nat
}.

Definition in_ranges (c : ascii) (rs : list (ascii * ascii)) : bool :=
  existsb (fun '(lo, hi) =>
             (nat_of_ascii lo <=? nat_of_ascii c)%nat &&
             (nat_of_ascii c <=? nat_of_ascii hi)%nat) rs.

(** Matching from the current position: the class may still be taken
    [atMost] times and must still be taken [atLeast] times before [$]. *)
Fixpoint match_repeat (rs : list (ascii * ascii)) (atLeast atMost : nat)
    (input : string) {struct input} : bool :=
  match input with
  | EmptyString => (atLeast =? 0)%nat
  | String c rest =>
      match atMost with
      | O => false
      | S atMost' =>
          in_ranges c rs && match_repeat rs (Nat.pred atLeast) atMost' rest
      end
  end.

(** [RegExp.prototype.test]. *)
Definition test (re : Regex) (input : string) : bool :=
  match_repeat (ranges re) (atLeast re) (atMost re) input.

(** [/^[A-Z0-9.]{1,10}$/]. *)
Definition symbolRegex : Regex :=
  {| ranges := [("A"%char, "Z"%char); ("0"%char, "9"%char); ("."%char, "."%char)];
     atLeast := 1; atMost := 10 |}.

Section Validate.
(** The built-in [String.prototype.toUpperCase]. *)
Context (toUpperCase : string -> string).

(** [validateSymbol(symbol)]. *)
Definition validateSymbol (symbol : string) : bool :=
  test symbolRegex (toUpperCase symbol).

End Validate.

(** [toUpperCase] on strings of ASCII characters. *)
Definition upper (c : ascii) : ascii :=
  let n := nat_of_ascii c in
  if (97 <=? n)%nat && (n <=? 122)%nat then ascii_of_nat (n - 32) else c.

Fixpoint asciiUpperCase (s : string) : string :=
  match s with
  | EmptyString => EmptyString
  | String c rest => String (upper c) (asciiUpperCase rest)
  end.

(** The format in the specification's words: one to ten characters, each an
    uppercase letter, a digit or a dot. *)
Definition symbol_char (c : ascii) : Prop :=
  (nat_of_ascii "A" <= nat_of_ascii c <= nat_of_ascii "Z") \/
  (nat_of_ascii "0" <= nat_of_ascii c <= nat_of_ascii "9") \/
  c = "."%char.

Definition symbol_format (u : string) : Prop :=
  1 <= String.length u <= 10 /\
  forall c, In c (list_ascii_of_string u) -> symbol_char c.

End Symbols.

(** ** The environment configuration ([getRequiredEnv], [loadConfig]) *)
Module Config.
Import Js.
#[local] Open Scope string_scope.

(** [EnvConfig]. *)
Record SupabaseConfig : Type := { url : string; anonKey : string }.
Record AlphaVantageConfig : Type := { apiKey : string }.
Record EnvConfig : Type := {
  supabase : SupabaseConfig;
  alphaVantage : AlphaVantageConfig
}.

Section Env.
(** The built-in [String.prototype.trim]. *)
Context (trim : string -> string).
(** [import.meta.env]: the variables that are defined, with their values. *)
Context (env : gmap string string).

(** [getRequiredEnv(key)]. *)
Definition getRequiredEnv (key : string) : Result string :=
  match env !! key with
  | Some value =>
      if String.eqb value "" || String.eqb (trim value) "" then
        Throw ("Missing required environment variable: " ++ key ++
               String (Ascii.ascii_of_nat 10)
                 ("Please ensure " ++ key ++ " is set in your .env file."))
      else Ok value
  | None =>
      Throw ("Missing required environment variable: " ++ key ++
             String (Ascii.ascii_of_nat 10)
               ("Please ensure " ++ key ++ " is set in your .env file."))
  end.

(** [loadConfig()]: the properties of the object literal are evaluated in
    the order in which they are written. *)
Definition loadConfig : Result EnvConfig :=
  url ← getRequiredEnv "VITE_SUPABASE_URL";
  anonKey ← getRequiredEnv "VITE_SUPABASE_ANON_KEY";
  apiKey ← getRequiredEnv "VITE_ALPHA_VANTAGE_API_KEY";
  Ok {| supabase := {| url := url; anonKey := anonKey |};
        alphaVantage := {| apiKey := apiKey |} |}.

(** A variable that is defined and not blank. *)
Definition configured (key : string) : Prop :=
  exists value,
    env !! key = Some value /\ value <> "" /\ trim value <> "".

End Env.

(** The three variables, in the order [loadConfig] reads them. *)
Definition required : list string :=
  ["VITE_SUPABASE_URL"; "VITE_SUPABASE_ANON_KEY"; "VITE_ALPHA_VANTAGE_API_KEY"].

(** The message of the error thrown for [key]. *)
Definition missing (key : string) : string :=
  "Missing required environment variable: " ++ key ++
  String (Ascii.ascii_of_nat 10)
    ("Please ensure " ++ key ++ " is set in your .env file.").

(** [trim] on strings of ASCII characters: the white space is the space and
    the control characters from tab to carriage return. *)
Definition white (c : ascii) : bool :=
  let n := nat_of_ascii c in
  (n =? 32)%nat || ((9 <=? n)%nat && (n <=? 13)%nat).

Fixpoint trimStart (s : string) : string :=
  match s with
  | String c rest => if white c then trimStart rest else s
  | EmptyString => EmptyString
  end.

Fixpoint trimEnd (s : string) : string :=
  match s with
  | String c rest =>
      match trimEnd rest with
      | EmptyString => if white c then EmptyString else String c EmptyString
      | kept => String c kept
      end
  | EmptyString => EmptyString
  end.

Definition asciiTrim (s : string) : string := trimEnd (trimStart s).

(** A [.env] file in which the anon key is blank and the API key is not
    set at all. *)
Definition env_incomplete : gmap string string :=
  {[ "VITE_SUPABASE_URL" := "https://project.supabase.co";
     "VITE_SUPABASE_ANON_KEY" := "   " ]}.

End Config.

(** ** The watchlist ([user_stocks], [addUserStock], [removeUserStock]) *)
Module Watchlist.
Import Js.
#[local] Open Scope string_scope.

(** [UserStock], a row of [user_stocks]; the [id] stands for the UUID and
    [added_at] is in milliseconds. *)
Record UserStock : Type := {
  id : N;
  user_id : string;
  symbol : string;
  added_at : N
}.

(** What the table's definition makes an insert fail on: [symbol
    VARCHAR(10)] and [UNIQUE(user_id, symbol)].  (The length of a string is
    its number of characters; the strings here are ASCII.) *)
Inductive Violation : Type := too_long | duplicate_key.

(** The database behind the client: the table, the user of the session
    ([auth.uid()]), the time, and a supply of fresh ids
    ([gen_random_uuid()]). *)
Record Backend : Type := {
  user_stocks : list UserStock;
  currentUser : option string;
  clock : N;
  nextId : N
}.

Definition empty : Backend :=
  {| user_stocks := []; currentUser := None; clock := 0; nextId := 0 |}.

Definition as_user (user : option string) (b : Backend) : Backend :=
  {| user_stocks := user_stocks b; currentUser := user;
     clock := clock b; nextId := nextId b |}.

(** The row that makes [(user, s)] a duplicate. *)
Definition listed (user s : string) (row : UserStock) : bool :=
  String.eqb (user_id row) user && String.eqb (symbol row) s.

Section Service.
(** The built-in [String.prototype.toUpperCase]. *)
Context (toUpperCase : string -> string).
(** The [message] of the error the client gets for a violation. *)
Context (describe : Violation -> string).

(** [.from('user_stocks').insert({ user_id, symbol }).select().single()],
    sent by a session whose user is [user_id]: the policy [WITH CHECK
    (auth.uid() = user_id)] holds, the value must fit its column, and the
    pair must be new. *)
Definition insert (user s : string) (b : Backend)
  : (UserStock + Violation) * Backend :=
  if (10 <? String.length s)%nat then (inr too_long, b)
  else if existsb (listed user s) (user_stocks b) then (inr duplicate_key, b)
  else
    let row := {| id := nextId b; user_id := user; symbol := s;
                  added_at := clock b |} in
    (inl row,
     {| user_stocks := user_stocks b ++ [row]; currentUser := currentUser b;
        clock := clock b; nextId := N.succ (nextId b) |}).

(** [addUserStock(symbol)]. *)
Definition addUserStock (s : string) (b : Backend)
  : Result UserStock * Backend :=
  match currentUser b with
  | None => (Throw "User not authenticated", b)
  | Some user =>
      match insert user (toUpperCase s) b with
      | (inl data, b') => (Ok data, b')
      | (inr violation, b') => (Throw (describe violation), b')
      end
  end.

(** [removeUserStock(stockId)]: [.delete().eq('id', stockId)] under the
    policy [USING (auth.uid() = user_id)]; deleting no row is no error. *)
Definition removeUserStock (stockId : N) (b : Backend)
  : Result unit * Backend :=
  let mine (row : UserStock) :=
    match currentUser b with
    | Some user => String.eqb (user_id row) user
    | None => false
    end in
  (Ok (),
   {| user_stocks :=
        List.filter (fun row => negb ((id row =? stockId)%N && mine row))
                    (user_stocks b);
      currentUser := currentUser b; clock := clock b; nextId := nextId b |}).

(** A call by some client: who is signed in, and what is called. *)
Inductive Call : Type :=
| Add (user : option string) (s : string)
| Remove (user : option string) (stockId : N)
| Wait (ms : N).

Definition call (b : Backend) (c : Call) : Backend :=
  match c with
  | Add user s => snd (addUserStock s (as_user user b))
  | Remove user stockId => snd (removeUserStock stockId (as_user user b))
  | Wait ms =>
      {| user_stocks := user_stocks b; currentUser := currentUser b;
         clock := (clock b + ms)%N; nextId := nextId b |}
  end.

Definition history (calls : list Call) : Backend := fold_left call calls empty.

(** The constraints of the table, and what [addUserStock] adds to them:
    the pair [(user_id, symbol)] is unique, the ids are unique and were
    handed out, and every symbol fits its column and is in upper case. *)
Definition valid (b : Backend) : Prop :=
  NoDup (map (fun row => (user_id row, symbol row)) (user_stocks b)) /\
  NoDup (map id (user_stocks b)) /\
  Forall (fun row =>
            (id row < nextId b)%N /\ String.length (symbol row) <= 10 /\
            toUpperCase (symbol row) = symbol row)
         (user_stocks b).

End Service.

(** The messages of PostgreSQL for the two violations. *)
Definition postgres (v : Violation) : string :=
  match v with
  | too_long => "value too long for type character varying(10)"
  | duplicate_key =>
      "duplicate key value violates unique constraint " ++
      String (Ascii.ascii_of_nat 34)
        ("user_stocks_user_id_symbol_key" ++
         String (Ascii.ascii_of_nat 34) EmptyString)
  end.

End Watchlist.

(** ** The form that adds a stock ([AddStock]) *)
Module Search.
(** [SearchResult]. *)
Record SearchResult : Type := {
  symbol : string;
  name : string;
  type : string;
  region : string;
  currency : string
}.
End Search.

Module AddStock.
Import Js.
#[local] Open Scope string_scope.

(** [String.prototype.includes]. *)
Fixpoint includes (s searchString : string) : bool :=
  String.prefix searchString s ||
  match s with
  | String _ rest => includes rest searchString
  | EmptyString => false
  end.

(** The [useState] cells of the component that the handlers write. *)
Record Form : Type := {
  symbol : string;
  searchResults : list Search.SearchResult;
  loading : bool;
  error : string;
  success : string;
  showResults : bool
}.

Section Component.
Context (trim : string -> string) (toUpperCase : string -> string).
Context (describe : Watchlist.Violation -> string).

(** [handleAddStock(selectedSymbol)], run to its end. *)
Definition handleAddStock (selectedSymbol : string) (form : Form)
  : Watchlist.Backend -> Form * Watchlist.Backend := fun b =>
  match Watchlist.addUserStock toUpperCase describe selectedSymbol b with
  | (Ok _, b') =>
      ({| symbol := ""; searchResults := searchResults form;
          loading := false; error := "";
          success := selectedSymbol ++ " added successfully!";
          showResults := false |}, b')
  | (Throw message, b') =>
      ({| symbol := symbol form; searchResults := searchResults form;
          loading := false;
          error :=
            if includes message "duplicate"
            then "You already have this stock in your watchlist"
            else message;
          success := ""; showResults := false |}, b')
  end.

Definition with_error (message : string) (form : Form) : Form :=
  {| symbol := symbol form; searchResults := searchResults form;
     loading := loading form; error := message; success := success form;
     showResults := showResults form |}.

(** [handleSubmit(e)]. *)
Definition handleSubmit (form : Form)
  : Watchlist.Backend -> Form * Watchlist.Backend := fun b =>
  let trimmedSymbol := toUpperCase (trim (symbol form)) in
  if String.eqb trimmedSymbol "" then
    (with_error "Please enter a stock symbol" form, b)
  else
    match find (fun r => String.eqb (toUpperCase (Search.symbol r)) trimmedSymbol)
               (searchResults form) with
    | Some exactMatch => handleAddStock (Search.symbol exactMatch) form b
    | None =>
        if negb (Symbols.validateSymbol toUpperCase trimmedSymbol) then
          (with_error "Invalid symbol format" form, b)
        else handleAddStock trimmedSymbol form b
    end.

End Component.

(** The form with [typed] in its input and the results of a search. *)
Definition typed (s : string) (results : list Search.SearchResult) : Form :=
  {| symbol := s; searchResults := results; loading := false;
     error := ""; success := ""; showResults := false |}.

End AddStock.

(** The search results for [BRK]: the symbol of the second one has a
    hyphen, which [validateSymbol] rejects. *)
Definition brk_results : list Search.SearchResult :=
  [ {| Search.symbol := "BRK.A"; Search.name := "Berkshire Hathaway Inc";
       Search.type := "Equity"; Search.region := "United States";
       Search.currency := "USD" |};
    {| Search.symbol := "BRK-B"; Search.name := "Berkshire Hathaway Inc";
       Search.type := "Equity"; Search.region := "United States";
       Search.currency := "USD" |} ].

(** A database in which [ada] is signed in and holds no stock. *)
Definition ada_signed_in : Watchlist.Backend :=
  Watchlist.as_user (Some "ada"%string) Watchlist.empty.

(** [ada] adds [aapl], waits, adds [AAPL] again and [msft]; [bob] adds
    [AAPL] and tries to remove [ada]'s row; a client without a session
    tries to add [goog]. *)
Definition busy_week : list Watchlist.Call :=
  [Watchlist.Add (Some "ada"%string) "aapl"; Watchlist.Wait 1000;
   Watchlist.Add (Some "ada"%string) "AAPL";
   Watchlist.Add (Some "bob"%string) "AAPL";
   Watchlist.Add (Some "ada"%string) "msft";
   Watchlist.Remove (Some "bob"%string) 0; Watchlist.Add None "goog"].
(** * Properties *)

(** ** Dispatcher *)
Section DispatcherFacts.
Import Dispatcher.
Context {T E : Type}.
Implicit Types (s : State T E) (r : Request T E) (rs : list (Request T E)).
Implicit Types (q : list (Job T E)) (job : Job T E) (t wake : N) (n p : nat).
Local Arguments seq : simpl never.
Local Arguments N.add : simpl never.

Lemma tickets_from_length n rs : length (tickets_from n rs) = length rs.
Proof. revert n; induction rs; intros; simpl; auto. Qed.

Lemma tickets_from_app n rs r :
  tickets_from n (rs ++ [r]) =
  tickets_from n rs ++ [{| requestFn := r; ticket := n + length rs |}].
Proof.
  revert n; induction rs as [|r' rs IH]; intros n; simpl.
  - by rewrite Nat.add_0_r.
  - rewrite IH. do 4 f_equal. lia.
Qed.

Lemma tickets_from_nil n rs : tickets_from n rs = [] -> rs = [].
Proof. destruct rs; simpl; [done | discriminate]. Qed.

Lemma settled_not_pending (o : Outcome T E) : settled o <> Pending.
Proof. destruct o; discriminate. Qed.

Lemma consistent_init : consistent (T:=T) (E:=E) [] 0 init.
Proof. repeat split; auto; simpl; try lia; discriminate. Qed.

Lemma consistent_promises_length rs n s :
  consistent rs n s -> length (promises s) = length rs.
Proof.
  intros (Hn & _ & Hp & _). rewrite Hp, length_app, length_replicate.
  unfold outcomes. rewrite length_map, length_take. lia.
Qed.

Lemma consistent_idle rs n s :
  consistent rs n s -> suspended s = Idle -> n = length rs.
Proof.
  intros (Hn & Hb & _ & _ & _ & Hq) Hi. unfold inflight in Hb.
  rewrite Hi, (Hq Hi) in Hb. symmetry in Hb. apply tickets_from_nil in Hb.
  apply (f_equal length) in Hb. rewrite length_drop in Hb. simpl in Hb. lia.
Qed.

Lemma consistent_queueRequest rs n s r :
  consistent rs n s ->
  fst (queueRequest r s) = length rs /\
  consistent (rs ++ [r]) n (snd (queueRequest r s)).
Proof.
  intros Hc. pose proof (consistent_promises_length _ _ _ Hc) as Hlen.
  split; [exact Hlen|].
  pose proof (consistent_idle _ _ _ Hc) as Hidle.
  destruct Hc as (Hn & Hb & Hp & Hcalls & Hf & Hq).
  destruct s as [q flag sus ps clk cs ar]; simpl in *.
  assert (Hps : ps ++ [Pending] =
                outcomes (take n (rs ++ [r])) ++
                replicate (length (rs ++ [r]) - n) Pending).
  { rewrite take_app_le by lia. rewrite length_app. simpl.
    replace (length rs + 1 - n) with (S (length rs - n)) by lia.
    rewrite replicate_S_end, app_assoc. by rewrite <- Hp. }
  unfold queueRequest, processQueue; simpl.
  destruct flag; simpl.
  - (* a drain is in progress: the job only joins the queue *)
    assert (sus <> Idle) as Hbusy by (intros Hs; apply Hf in Hs; discriminate).
    assert (n + length (inflight
              {| requestQueue := q; isProcessingQueue := true; suspended := sus;
                 promises := ps; clock := clk; calls := cs; arrivals := ar |})
          <= length rs)
      as Hk.
    { apply (f_equal length) in Hb.
      rewrite length_app, tickets_from_length, length_drop in Hb. lia. }
    unfold consistent, inflight in *; simpl in *. repeat split; auto.
    + rewrite length_app; simpl; lia.
    + rewrite drop_app_le by lia. rewrite tickets_from_app.
      rewrite app_assoc, Hb.
      do 3 f_equal. rewrite length_drop. lia.
    + by rewrite take_app_le.
    + intros; apply Hf; done.
    + intros; by apply Hf.
    + intros; done.
  - (* idle: processQueue starts the job at once *)
    assert (sus = Idle) as -> by (by apply Hf).
    rewrite (Hq eq_refl) in *. specialize (Hidle eq_refl). subst n.
    unfold loop; simpl. unfold consistent, inflight; simpl.
    repeat split; auto; try discriminate.
    + rewrite length_app; simpl; lia.
    + rewrite drop_app_le by lia. rewrite drop_all. simpl. by rewrite Hlen.
    + rewrite map_app, Hcalls. simpl.
      rewrite Nat.add_0_r, take_ge by lia.
      rewrite take_ge by (rewrite length_app; simpl; lia).
      by rewrite tickets_from_app, Hlen.
Qed.

Lemma tickets_from_cons n rs job q :
  tickets_from n rs = job :: q ->
  exists r rs', rs = r :: rs' /\ job = {| requestFn := r; ticket := n |} /\
                q = tickets_from (S n) rs'.
Proof.
  destruct rs as [|r rs']; simpl; [discriminate|].
  intros [= <- <-]. by exists r, rs'.
Qed.

Lemma drop_cons_inv {A} (l : list A) n x k :
  drop n l = x :: k -> l !! n = Some x /\ drop (S n) l = k /\ n < length l.
Proof.
  intros H.
  assert (l !! n = Some x) as Hx.
  { rewrite <- (Nat.add_0_r n), <- lookup_drop, H. done. }
  split; [done|]. split.
  - rewrite (drop_S _ _ _ Hx) in H. congruence.
  - by apply lookup_lt_Some in Hx.
Qed.

(** Settling the first pending promise. *)
Lemma settle_next rs n r :
  rs !! n = Some r ->
  settle n (outcome r)
    (outcomes (take n rs) ++ replicate (length rs - n) (Pending (T:=T) (E:=E))) =
  outcomes (take (S n) rs) ++ replicate (length rs - S n) Pending.
Proof.
  intros Hr. pose proof (lookup_lt_Some _ _ _ Hr) as Hlt.
  assert (length (outcomes (take n rs)) = n) as Hl.
  { unfold outcomes. rewrite length_map, length_take. lia. }
  unfold settle.
  replace (length rs - n) with (S (length rs - S n)) by lia.
  rewrite lookup_app_r by lia. rewrite Hl, Nat.sub_diag. simpl.
  rewrite insert_app_r_alt by lia. rewrite Hl, Nat.sub_diag. simpl.
  rewrite (take_S_r _ _ _ Hr). unfold outcomes. rewrite map_app. simpl.
  by rewrite <- app_assoc.
Qed.

Lemma consistent_fire rs n s :
  consistent rs n s -> consistent rs (n + length (inflight s)) (fire s).
Proof.
  intros (Hn & Hb & Hp & Hcalls & Hf & Hq).
  destruct s as [q flag sus ps clk cs ar]; simpl in *.
  destruct sus as [|job wake|wake]; unfold inflight in *; simpl in *.
  - rewrite Nat.add_0_r. repeat split; auto; apply Hf.
  - (* the request settles *)
    symmetry in Hb. apply tickets_from_cons in Hb as (r & rs' & Hd & -> & ->).
    apply drop_cons_inv in Hd as (Hr & <- & Hlt).
    unfold fire, afterRequest; simpl. rewrite Hp, (settle_next _ _ _ Hr).
    replace (n + 1) with (S n) by lia.
    destruct (tickets_from (S n) (drop (S n) rs)) as [|job' q'] eqn:Hrest; simpl.
    + unfold loop; simpl. unfold consistent, inflight; simpl.
      repeat split; auto; try lia. rewrite Hcalls. do 2 f_equal; lia.
    + unfold consistent, inflight; simpl.
      repeat split; auto; try discriminate; try lia.
      * rewrite Hcalls. do 2 f_equal; lia.
      * intros Hfl. apply Hf in Hfl. discriminate.
  - (* the delay is over *)
    rewrite Nat.add_0_r. unfold fire, loop; simpl.
    destruct q as [|job q']; simpl.
    + unfold consistent, inflight; simpl. repeat split; auto.
    + pose proof (eq_sym Hb) as Hb'.
      apply tickets_from_cons in Hb' as (r & rs' & Hd & -> & ->).
      apply drop_cons_inv in Hd as (Hr & _ & Hlt).
      unfold consistent, inflight; simpl. repeat split; auto; try discriminate.
      * rewrite map_app, Hcalls. simpl.
        rewrite Nat.add_0_r, Nat.add_1_r, (take_S_r _ _ _ Hr).
        rewrite tickets_from_app, length_take. simpl.
        do 3 f_equal. lia.
      * intros Hfl. apply Hf in Hfl. discriminate.
Qed.

Lemma consistent_at_time rs n s t :
  consistent rs n s -> consistent rs n (at_time t s).
Proof. by destruct s. Qed.

Lemma consistent_run_until fuel t rs n s :
  consistent rs n s -> exists n', consistent rs n' (run_until fuel t s).
Proof.
  revert n s; induction fuel as [|fuel IH]; intros n s Hc; simpl.
  - by exists n.
  - destruct (wakeup s) as [wake|].
    + destruct (wake <=? t)%N.
      * eapply IH, consistent_fire, Hc.
      * exists n. by apply consistent_at_time.
    + exists n. by apply consistent_at_time.
Qed.

Lemma consistent_act rs n s a :
  consistent rs n s ->
  exists n', consistent (rs ++ submissions [a]) n' (act a s).
Proof.
  intros Hc. destruct a as [r|d]; simpl.
  - exists n. by apply consistent_queueRequest.
  - rewrite app_nil_r. by eapply consistent_run_until.
Qed.

Lemma submissions_app (acts1 acts2 : list (Action T E)) :
  submissions (acts1 ++ acts2) = submissions acts1 ++ submissions acts2.
Proof.
  induction acts1 as [|[r|d] acts1 IH]; simpl; auto. by rewrite IH.
Qed.

Lemma consistent_exec acts rs n s :
  consistent rs n s ->
  exists n', consistent (rs ++ submissions acts) n' (exec acts s).
Proof.
  revert rs n s; induction acts as [|a acts IH]; intros rs n s Hc.
  - exists n. by rewrite app_nil_r.
  - destruct (consistent_act _ _ _ a Hc) as (n1 & H1).
    destruct (IH _ _ _ H1) as (n2 & H2). exists n2.
    change (a :: acts) with ([a] ++ acts).
    by rewrite submissions_app, app_assoc.
Qed.

(** Enough fuel and enough time leave the coroutine idle: the event loop
    has delivered every event. *)
Lemma run_until_idle fuel t s :
  events s < fuel -> (finish s <= t)%N ->
  suspended (run_until fuel t s) = Idle /\ clock (run_until fuel t s) = t.
Proof.
  revert s; induction fuel as [|fuel IH]; intros s Hfuel Hfin; [lia|].
  destruct s as [q flag sus ps clk cs ar].
  unfold events, finish in *; simpl in *.
  destruct sus as [|job wake|wake]; simpl in *; [done| |].
  - destruct (N.leb_spec wake t) as [_|Hlt]; [|lia].
    apply IH; unfold fire, afterRequest, loop; simpl;
      destruct q as [|job' q']; simpl in *; lia.
  - destruct (N.leb_spec wake t) as [_|Hlt]; [|destruct q; lia].
    apply IH; unfold fire, loop; simpl;
      destruct q as [|job' q']; simpl in *; lia.
Qed.

Lemma drain_idle s :
  suspended (drain s) = Idle /\ (clock s <= clock (drain s))%N.
Proof.
  unfold drain, elapse.
  destruct (run_until_idle (S (events s)) (clock s + (finish s - clock s)) s)
    as [Hi Hc]; [lia | lia |].
  split; [done|]. rewrite Hc. lia.
Qed.

(** Once the backlog has drained every promise holds its own job's outcome
    and the jobs were invoked in the order of their tickets. *)
Lemma consistent_drain rs n s :
  consistent rs n s ->
  promises (drain s) = outcomes rs /\
  map fst (calls (drain s)) = tickets_from 0 rs.
Proof.
  intros Hc.
  destruct (consistent_run_until (S (events s))
              (clock s + (finish s - clock s)) _ _ _ Hc) as (n' & Hc').
  fold (elapse (finish s - clock s) s) in Hc'. fold (drain s) in Hc'.
  destruct (drain_idle s) as [Hi _].
  pose proof (consistent_idle _ _ _ Hc' Hi) as ->.
  destruct Hc' as (_ & _ & Hp & Hcalls & _).
  unfold inflight in Hcalls. rewrite Hi in Hcalls. simpl in Hcalls.
  rewrite Nat.add_0_r, take_ge in Hcalls by lia. split; [|done].
  rewrite Hp, take_ge, Nat.sub_diag by lia. simpl. by rewrite app_nil_r.
Qed.

(** What a drain that is waiting for a request goes on to call, and when. *)
Lemma run_until_calls q : forall fuel flag job wake ps clk cs ar t,
  2 * length q + 2 < fuel -> (wake + backlog_time q <= t)%N ->
  calls (run_until fuel t
           {| requestQueue := q; isProcessingQueue := flag;
              suspended := AwaitRequest job wake; promises := ps;
              clock := clk; calls := cs; arrivals := ar |}) =
  cs ++ queue_calls (wake + minRequestInterval) q.
Proof.
  induction q as [|job' q' IH]; intros fuel flag job wake ps clk cs ar t Hfuel Hfin;
    simpl in Hfuel, Hfin.
  - destruct fuel as [|fuel]; [lia|]. simpl.
    destruct (N.leb_spec wake t) as [_|Hlt]; [|lia].
    rewrite app_nil_r. by destruct fuel.
  - destruct fuel as [|[|fuel]]; [lia | lia |]. simpl.
    destruct (N.leb_spec wake t) as [_|Hlt]; [|lia]. simpl.
    destruct (N.leb_spec (wake + minRequestInterval) t) as [_|Hlt]; [|lia].
    unfold fire, afterRequest, loop; simpl.
    rewrite IH by lia. by rewrite <- app_assoc.
Qed.

Lemma submit_all_busy rs : forall q sus (ps : list (Promise T E)) clk cs ar,
  submit_all rs
    {| requestQueue := q; isProcessingQueue := true; suspended := sus;
       promises := ps; clock := clk; calls := cs; arrivals := ar |} =
  {| requestQueue := q ++ tickets_from (length ps) rs;
     isProcessingQueue := true; suspended := sus;
     promises := ps ++ replicate (length rs) Pending;
     clock := clk; calls := cs;
     arrivals := ar ++ replicate (length rs) clk |}.
Proof.
  unfold submit_all.
  induction rs as [|r rs IH]; intros q sus ps clk cs ar; simpl.
  - by rewrite !app_nil_r.
  - unfold queueRequest, processQueue; simpl. rewrite IH.
    rewrite length_app, <- !app_assoc. simpl.
    by rewrite Nat.add_1_r.
Qed.

Lemma queue_calls_tickets rs : forall t n,
  queue_calls t (tickets_from n rs) = burst_calls t n rs.
Proof. induction rs as [|r rs IH]; intros t n; simpl; [done|]. by rewrite IH. Qed.

(** A burst is called job after job, each a full interval after the
    previous one has settled. *)
Lemma burst_drained_calls rs :
  calls (drain (submit_all rs init)) = burst_calls 0 0 rs.
Proof.
  destruct rs as [|r rs]; [done|].
  unfold submit_all. cbn [map exec fold_left act].
  change (fold_left _ (map Submit rs) ?s) with (submit_all rs s).
  unfold queueRequest, processQueue, loop, init; simpl.
  rewrite submit_all_busy. unfold drain, elapse, events, finish.
  cbn [requestQueue suspended clock].
  rewrite run_until_calls by (simpl; lia).
  simpl. by rewrite queue_calls_tickets.
Qed.

Lemma burst_calls_spacing rs : forall t n i a ta b tb,
  burst_calls t n rs !! i = Some (a, ta) ->
  burst_calls t n rs !! S i = Some (b, tb) ->
  ticket b = S (ticket a) /\
  tb = (ta + latency (requestFn a) + minRequestInterval)%N.
Proof.
  induction rs as [|r rs IH]; intros t n i a ta b tb; [done|].
  destruct i as [|i]; simpl.
  - intros [= <- <-]. destruct rs as [|r' rs']; [done|]. simpl.
    by intros [= <- <-].
  - apply IH.
Qed.

Lemma submissions_submit rs : submissions (map Submit rs) = rs.
Proof. induction rs as [|r rs IH]; simpl; [done|]. by rewrite IH. Qed.

Lemma burst_calls_latency rs : forall rs' t n,
  map latency rs = map latency rs' ->
  map (fun call => (ticket (fst call), snd call)) (burst_calls t n rs) =
  map (fun call => (ticket (fst call), snd call)) (burst_calls t n rs').
Proof.
  induction rs as [|r rs IH]; intros [|r' rs'] t n; simpl; try done.
  intros [= -> Hl]. by rewrite (IH rs').
Qed.

Lemma outcomes_lookup rs k r :
  rs !! k = Some r -> outcomes rs !! k = Some (settled (outcome r)).
Proof. intros Hr. unfold outcomes. by rewrite list_lookup_fmap, Hr. Qed.

Lemma burst_drained_promises rs :
  promises (drain (submit_all rs init)) = outcomes rs /\
  map fst (calls (drain (submit_all rs init))) = tickets_from 0 rs.
Proof.
  destruct (consistent_exec (map Submit rs) [] 0 init consistent_init)
    as (n & Hc).
  rewrite submissions_submit in Hc. simpl in Hc.
  by apply consistent_drain in Hc.
Qed.

Lemma events_fire s : suspended s <> Idle -> events (fire s) < events s.
Proof.
  destruct s as [q flag sus ps clk cs ar]. unfold events, fire; simpl.
  destruct sus as [|job wake|wake]; [done| |]; intros _;
    unfold afterRequest, loop; simpl; destruct q; simpl; lia.
Qed.

Lemma consistent_lookup rs n s p r :
  consistent rs n s -> rs !! p = Some r ->
  promises s !! p =
  Some (if decide (p < n) then settled (outcome r) else Pending).
Proof.
  intros (Hn & _ & Hps & _) Hr. rewrite Hps.
  assert (length (outcomes (take n rs)) = n) as Hl.
  { unfold outcomes. rewrite length_map, length_take. lia. }
  destruct (decide (p < n)) as [Hlt|Hge].
  - rewrite lookup_app_l by lia.
    apply outcomes_lookup. by rewrite lookup_take_lt.
  - rewrite lookup_app_r by lia. apply lookup_replicate. split; [done|].
    apply lookup_lt_Some in Hr. lia.
Qed.

(** [await] returns, and with the promise settled by its own job. *)
Lemma run_await_settles fuel : forall rs n s p r,
  consistent rs n s -> rs !! p = Some r -> events s < fuel ->
  promises (run_await fuel p s) !! p = Some (settled (outcome r)) /\
  exists n', consistent rs n' (run_await fuel p s).
Proof.
  induction fuel as [|fuel IH]; intros rs n s p r Hc Hr Hfuel; [lia|].
  simpl. unfold is_pending.
  rewrite (consistent_lookup _ _ _ _ _ Hc Hr).
  destruct (decide (p < n)) as [Hlt|Hge].
  - destruct (settled (outcome r)) eqn:Ho.
    + by destruct (outcome r).
    + split; [|by exists n].
      rewrite (consistent_lookup _ _ _ _ _ Hc Hr), decide_True by done.
      by rewrite Ho.
    + split; [|by exists n].
      rewrite (consistent_lookup _ _ _ _ _ Hc Hr), decide_True by done.
      by rewrite Ho.
  - assert (suspended s <> Idle) as Hbusy.
    { intros Hi. pose proof (consistent_idle _ _ _ Hc Hi).
      apply lookup_lt_Some in Hr. lia. }
    unfold wakeup. destruct (suspended s) as [|job wake|wake] eqn:Hs; [done| |];
      (eapply IH; [by apply consistent_fire | done |]);
      pose proof (events_fire s) as Hlt; rewrite Hs in Hlt;
      specialize (Hlt ltac:(discriminate)); lia.
Qed.

Lemma await_settles rs n s p r :
  consistent rs n s -> rs !! p = Some r ->
  promises (await p s) !! p = Some (settled (outcome r)) /\
  exists n', consistent rs n' (await p s).
Proof. intros Hc Hr. unfold await. eapply run_await_settles; eauto. Qed.

Lemma run_await_promises_length fuel : forall rs n s p,
  consistent rs n s ->
  length (promises (run_await fuel p s)) = length (promises s).
Proof.
  induction fuel as [|fuel IH]; intros rs n s p Hc; [done|]. simpl.
  destruct (is_pending p s); [|done].
  destruct (wakeup s); [|done].
  rewrite (IH rs _ (fire s) p (consistent_fire _ _ _ Hc)).
  rewrite (consistent_promises_length _ _ _ (consistent_fire _ _ _ Hc)).
  by rewrite (consistent_promises_length _ _ _ Hc).
Qed.

(** Submitting a job and awaiting its promise. *)
Lemma queueRequest_await rs n s r :
  consistent rs n s ->
  let p := fst (queueRequest r s) in
  let s' := await p (snd (queueRequest r s)) in
  promises s' !! p = Some (settled (outcome r)) /\
  length (promises s') = S (length (promises s)) /\
  exists n', consistent (rs ++ [r]) n' s'.
Proof.
  intros Hc p s'.
  destruct (consistent_queueRequest _ _ _ r Hc) as [Hp Hc1]. fold p in Hp.
  assert ((rs ++ [r]) !! p = Some r) as Hr.
  { rewrite Hp, lookup_app_r by lia. by rewrite Nat.sub_diag. }
  destruct (await_settles _ _ _ _ _ Hc1 Hr) as [Hs Hc2].
  split; [done|]. split; [|done].
  unfold s', await. rewrite (run_await_promises_length _ _ _ _ _ Hc1).
  rewrite (consistent_promises_length _ _ _ Hc1).
  rewrite (consistent_promises_length _ _ _ Hc).
  rewrite length_app. simpl. lia.
Qed.

(** *** Spacing of the calls, whatever the schedule *)

Lemma adjacent_snoc {A} (R : A -> A -> Prop) (l : list A) x :
  adjacent R l -> (forall y, last l = Some y -> R y x) ->
  adjacent R (l ++ [x]).
Proof.
  intros Hadj Hlast i a b Ha Hb.
  destruct (decide (S i < length l)) as [Hlt|Hge].
  - rewrite lookup_app_l in Ha by lia. rewrite lookup_app_l in Hb by lia.
    eauto.
  - pose proof (lookup_lt_Some _ _ _ Hb) as Hlen.
    rewrite length_app in Hlen. simpl in Hlen.
    assert (S i = length l) as Hi by lia.
    rewrite lookup_app_l in Ha by lia.
    rewrite lookup_app_r in Hb by lia.
    replace (S i - length l) with 0 in Hb by lia. injection Hb as <-.
    apply Hlast. rewrite last_lookup.
    by replace (Nat.pred (length l)) with i by lia.
Qed.

Lemma adjacent_impl {A} (R R' : A -> A -> Prop) (l : list A) :
  (forall x y, R x y -> R' x y) -> adjacent R l -> adjacent R' l.
Proof. intros Himpl Hadj i x y Hx Hy. eauto. Qed.

Lemma settle_length p (o : Outcome T E) ps :
  length (settle p o ps) = length ps.
Proof.
  unfold settle. destruct (ps !! p) as [[| |]|]; try done.
  apply length_insert.
Qed.

Lemma timed_init : timed (T:=T) (E:=E) init.
Proof. repeat split; simpl; try done. Qed.

Lemma timed_queueRequest rs n s r :
  consistent rs n s -> timed s -> timed (snd (queueRequest r s)).
Proof.
  intros (_ & _ & _ & _ & Hf & Hq) (Hlen & Hadj & Hsus).
  destruct s as [q flag sus ps clk cs ar]; simpl in *.
  assert (forall a b,
            spaced {| requestQueue := q; isProcessingQueue := flag;
                      suspended := sus; promises := ps; clock := clk;
                      calls := cs; arrivals := ar |} a b ->
            forall q' flag' sus' ps' cs',
            spaced {| requestQueue := q'; isProcessingQueue := flag';
                      suspended := sus'; promises := ps'; clock := clk;
                      calls := cs'; arrivals := ar ++ [clk] |} a b) as Hmono.
  { intros a b [H1 H2] *. split; [done|]. destruct H2 as [H2|H2]; [by left|].
    right. simpl in *. by apply lookup_app_l_Some. }
  unfold queueRequest, processQueue; simpl.
  destruct flag; simpl.
  - assert (sus <> Idle) as Hbusy by (intros Hs; apply Hf in Hs; discriminate).
    unfold timed; simpl. split; [rewrite !length_app; simpl; lia|]. split.
    + intros i a b Ha Hb. eapply Hmono, Hadj; eauto.
    + by destruct sus.
  - assert (sus = Idle) as -> by (by apply Hf).
    rewrite (Hq eq_refl). unfold loop; simpl.
    unfold timed; simpl. split; [rewrite !length_app; simpl; lia|]. split.
    + apply adjacent_snoc.
      * intros i a b Ha Hb. eapply Hmono, Hadj; eauto.
      * intros a Ha. split; [by apply Hsus|]. right. simpl.
        rewrite <- Hlen, lookup_app_r by lia. by rewrite Nat.sub_diag.
    + split; [lia|]. exists clk. by rewrite last_snoc.
Qed.

Lemma timed_fire s : timed s -> timed (fire s).
Proof.
  intros (Hlen & Hadj & Hsus).
  destruct s as [q flag sus ps clk cs ar]; simpl in *.
  destruct sus as [|job wake|wake]; unfold fire; simpl.
  - done.
  - destruct Hsus as (Hclk & ta & Hlast & ->).
    unfold afterRequest; simpl. destruct q as [|job' q']; simpl.
    + unfold timed; simpl. split; [by rewrite settle_length|]. split; [done|].
      intros a Ha. rewrite Hlast in Ha. injection Ha as <-.
      unfold settles_at; simpl. lia.
    + unfold timed; simpl. split; [by rewrite settle_length|]. split; [done|].
      split; [lia|]. by exists (job, ta).
  - destruct Hsus as (Hclk & a & Hlast & ->).
    unfold loop; simpl. destruct q as [|job' q']; simpl.
    + unfold timed; simpl. split; [done|]. split; [done|].
      intros a' Ha. rewrite Hlast in Ha. injection Ha as <-. lia.
    + unfold timed; simpl. split; [done|]. split.
      * apply adjacent_snoc; [done|].
        intros a' Ha. rewrite Hlast in Ha. injection Ha as <-.
        split; [simpl; lia|]. left. simpl. lia.
      * split; [lia|]. eexists. by rewrite last_snoc.
Qed.

Lemma timed_at_time s t :
  timed s -> (clock s <= t)%N ->
  (forall wake, wakeup s = Some wake -> (t <= wake)%N) ->
  timed (at_time t s).
Proof.
  intros (Hlen & Hadj & Hsus) Hclk Hwake.
  destruct s as [q flag sus ps clk cs ar]; simpl in *.
  unfold timed; simpl.
  split; [done|]. split; [done|]. unfold wakeup in Hwake. simpl in *.
  destruct sus as [|job wake|wake].
  - intros a Ha. specialize (Hsus a Ha). lia.
  - split; [by apply Hwake|]. apply Hsus.
  - split; [by apply Hwake|]. apply Hsus.
Qed.

Lemma clock_fire s wake : wakeup s = Some wake -> clock (fire s) = wake.
Proof.
  destruct s as [q flag sus ps clk cs ar]. unfold wakeup, fire; simpl.
  destruct sus as [|job w|w]; [done| |]; intros [= ->];
    unfold afterRequest, loop; simpl; by destruct q.
Qed.

Lemma timed_run_until fuel t : forall s,
  timed s -> (clock s <= t)%N -> timed (run_until fuel t s).
Proof.
  induction fuel as [|fuel IH]; intros s Ht Hclk; [done|]. simpl.
  destruct (wakeup s) as [wake|] eqn:Hw.
  - destruct (N.leb_spec wake t) as [Hle|Hlt].
    + apply IH; [by apply timed_fire|]. by rewrite (clock_fire s wake).
    + apply timed_at_time; [done | done |].
      intros w Hw'. rewrite Hw in Hw'. injection Hw' as <-. lia.
  - apply timed_at_time; [done | done |]. intros w Hw'. by rewrite Hw in Hw'.
Qed.

Lemma timed_exec acts : forall rs n s,
  consistent rs n s -> timed s -> timed (exec acts s).
Proof.
  induction acts as [|a acts IH]; intros rs n s Hc Ht; [done|].
  destruct (consistent_act _ _ _ a Hc) as (n' & Hc').
  simpl. eapply IH; [exact Hc'|].
  destruct a as [r|d]; simpl.
  - by eapply timed_queueRequest.
  - apply timed_run_until; [done|lia].
Qed.

(** X1. In every schedule a job is invoked only after the previous call has
    settled, and a full [minRequestInterval] after that, unless it is
    invoked at the very moment it is submitted (the dispatcher being idle). *)
Theorem calls_are_spaced_unless_idle (acts : list (Action T E)) :
  adjacent (spaced (exec acts init)) (calls (exec acts init)).
Proof.
  by destruct (timed_exec acts [] 0 init consistent_init timed_init)
    as (_ & Hadj & _).
Qed.

(** *** The clock does not depend on what the jobs return *)

Lemma forget_loop s : forget (loop s) = loop (forget s).
Proof. destruct s as [[|job q] flag sus ps clk cs ar]; [done|].
  unfold loop, forget; simpl. by rewrite map_app. Qed.

Lemma forget_queueRequest r s :
  forget (snd (queueRequest r s)) = snd (queueRequest (forget_request r) (forget s)).
Proof.
  destruct s as [q flag sus ps clk cs ar].
  unfold queueRequest, processQueue; simpl.
  rewrite !length_app, !length_map. simpl.
  destruct flag; simpl.
  - unfold forget; simpl. by rewrite !map_app.
  - replace (length q + 1 =? 0) with false by (symmetry; apply Nat.eqb_neq; lia).
    rewrite forget_loop. unfold forget; simpl.
    by rewrite !map_app.
Qed.

Lemma forget_settle p (o : Outcome T E) ps :
  map forget_promise (settle p o ps) =
  settle p (Returns ()) (map forget_promise ps).
Proof.
  unfold settle. change (map forget_promise ?l) with (forget_promise <$> l).
  rewrite list_lookup_fmap.
  destruct (ps !! p) as [[| |]|] eqn:Hp; simpl; try done.
  rewrite list_fmap_insert. by destruct o.
Qed.

Lemma forget_fire s : forget (fire s) = fire (forget s).
Proof.
  destruct s as [q flag sus ps clk cs ar].
  destruct sus as [|job wake|wake]; unfold fire; simpl.
  - done.
  - unfold afterRequest; simpl. rewrite length_map.
    destruct q as [|job' q']; simpl.
    + unfold loop, forget; simpl. by rewrite forget_settle.
    + unfold forget; simpl. by rewrite forget_settle.
  - by rewrite forget_loop.
Qed.

Lemma forget_at_time t s : forget (at_time t s) = at_time t (forget s).
Proof. done. Qed.

Lemma forget_wakeup s : wakeup (forget s) = wakeup s.
Proof. destruct s as [q flag [|job wake|wake] ps clk cs ar]; done. Qed.

Lemma forget_run_until fuel t : forall s,
  forget (run_until fuel t s) = run_until fuel t (forget s).
Proof.
  induction fuel as [|fuel IH]; intros s; [done|]. simpl.
  rewrite forget_wakeup. destruct (wakeup s) as [wake|]; [|done].
  destruct (wake <=? t)%N; [|done]. by rewrite IH, forget_fire.
Qed.

Lemma forget_events s : events (forget s) = events s.
Proof.
  destruct s as [q flag [|job wake|wake] ps clk cs ar];
    unfold events; simpl; by rewrite length_map.
Qed.

Lemma forget_backlog_time q :
  backlog_time (map forget_job q) = backlog_time q.
Proof. induction q as [|job q IH]; simpl; [done|]. by rewrite IH. Qed.

Lemma forget_finish s : finish (forget s) = finish s.
Proof.
  destruct s as [q flag [|job wake|wake] ps clk cs ar];
    unfold finish; simpl; rewrite ?forget_backlog_time; try done.
  destruct q as [|job' q']; simpl; [done|]. by rewrite forget_backlog_time.
Qed.

Lemma forget_elapse d s : forget (elapse d s) = elapse d (forget s).
Proof. unfold elapse. by rewrite forget_run_until, forget_events. Qed.

Lemma forget_drain s : forget (drain s) = drain (forget s).
Proof. unfold drain. by rewrite forget_elapse, forget_finish. Qed.

Lemma forget_exec (acts : list (Action T E)) : forall s,
  forget (exec acts s) = exec (map forget_action acts) (forget s).
Proof.
  induction acts as [|a acts IH]; intros s; [done|]. simpl.
  rewrite IH. f_equal. destruct a as [r|d]; simpl.
  - apply forget_queueRequest.
  - apply forget_elapse.
Qed.

Lemma forget_timeline s : timeline (forget s) = timeline s.
Proof.
  unfold timeline, forget; simpl. rewrite map_map. done.
Qed.

Lemma forget_with_outcome k o (acts : list (Action T E)) :
  map forget_action (with_outcome k o acts) = map forget_action acts.
Proof.
  revert k; induction acts as [|[r|d] acts IH]; intros k; simpl; [done| |].
  - destruct k as [|k]; simpl; [done|]. by rewrite IH.
  - by rewrite IH.
Qed.

(** Another outcome for one job leaves every call where it was. *)
Lemma timeline_with_outcome k o (acts : list (Action T E)) :
  timeline (drain (exec (with_outcome k o acts) init)) =
  timeline (drain (exec acts init)).
Proof.
  rewrite <- (forget_timeline (drain (exec acts init))).
  rewrite <- (forget_timeline (drain (exec (with_outcome k o acts) init))).
  by rewrite !forget_drain, !forget_exec, forget_with_outcome.
Qed.

Lemma submissions_with_outcome k o (acts : list (Action T E)) : forall j,
  j <> k ->
  submissions (with_outcome k o acts) !! j = submissions acts !! j.
Proof.
  revert k; induction acts as [|[r|d] acts IH]; intros k j Hj; simpl; [done| |].
  - destruct k as [|k]; simpl.
    + destruct j; [done|done].
    + destruct j as [|j]; [done|]. simpl. apply IH. lia.
  - by apply IH.
Qed.


(** C3. In any schedule of submissions in which job [k] fails, once the
    backlog has drained: promise [k] is the one rejected with that error and
    every other promise holds its own job's outcome; every job is invoked
    exactly once, in submission order; each call comes after the previous
    one has settled and a full interval later (unless its job was submitted
    to the idle dispatcher at that moment), and for jobs submitted together
    exactly a full interval later; and whatever job [k] does instead, the
    calls are made at the same times and the other promises are the same. *)
Theorem failed_job_is_isolated (acts : list (Action T E)) k r e :
  submissions acts !! k = Some r -> outcome r = Throws e ->
  let s := drain (exec acts init) in
  promises s !! k = Some (RejectedWith e) /\
  (forall j r', j <> k -> submissions acts !! j = Some r' ->
     promises s !! j = Some (settled (outcome r'))) /\
  map fst (calls s) = tickets_from 0 (submissions acts) /\
  adjacent (spaced s) (calls s) /\
  (forall rs, acts = map Submit rs -> calls s = burst_calls 0 0 rs) /\
  (forall o,
     let s' := drain (exec (with_outcome k o acts) init) in
     timeline s' = timeline s /\
     forall j, j <> k -> promises s' !! j = promises s !! j).
Proof.
  intros Hr He s.
  destruct (consistent_exec acts [] 0 init consistent_init) as (n & Hc).
  simpl in Hc. destruct (consistent_drain _ _ _ Hc) as [Hp Hcalls].
  fold s in Hp, Hcalls.
  split; [|split; [|split; [|split; [|split]]]].
  - rewrite Hp, (outcomes_lookup _ _ _ Hr), He. done.
  - intros j r' _ Hj. rewrite Hp. by apply outcomes_lookup.
  - done.
  - pose proof (timed_exec acts [] 0 init consistent_init timed_init) as Ht.
    apply (timed_run_until (S (events (exec acts init)))
             (clock (exec acts init) +
              (finish (exec acts init) - clock (exec acts init)))) in Ht;
      [|lia].
    by destruct Ht as (_ & Hadj & _).
  - intros rs ->. apply burst_drained_calls.
  - intros o s'. split; [apply timeline_with_outcome|].
    intros j Hj.
    destruct (consistent_exec (with_outcome k o acts) [] 0 init consistent_init)
      as (n' & Hc').
    simpl in Hc'. destruct (consistent_drain _ _ _ Hc') as [Hp' _].
    fold s' in Hp'. rewrite Hp, Hp'. unfold outcomes.
    by rewrite !list_lookup_fmap, submissions_with_outcome.
Qed.

End DispatcherFacts.

(** C1 (fails on the code). A job submitted two seconds after the previous
    one, which has settled and left the queue empty, is invoked at once:
    the two provider calls start 2000 ms apart, less than
    [minRequestInterval]. *)
Theorem idle_queue_skips_the_interval :
  Dispatcher.calls
    (Dispatcher.exec
       [Dispatcher.Submit quick_request; Dispatcher.Elapse 2000;
        Dispatcher.Submit quick_request]
       Dispatcher.init)
  = [({| Dispatcher.requestFn := quick_request; Dispatcher.ticket := 0 |}, 0%N);
     ({| Dispatcher.requestFn := quick_request; Dispatcher.ticket := 1 |}, 2000%N)] /\
  (2000 - 0 < Dispatcher.minRequestInterval)%N.
Proof. split; [reflexivity | reflexivity]. Qed.

(** The burst on the clock: calls at 0 s, 12.9 s and 25.3 s. *)
Example three_jobs_calls :
  Dispatcher.timeline (Dispatcher.drain (Dispatcher.submit_all three_jobs Dispatcher.init))
  = [(0, 0%N); (1, 12900%N); (2, 25300%N)] /\
  Dispatcher.promises (Dispatcher.drain (Dispatcher.submit_all three_jobs Dispatcher.init))
  = [Dispatcher.Fulfilled 1; Dispatcher.RejectedWith "HTTP error! status: 500";
     Dispatcher.Fulfilled 3].
Proof. split; reflexivity. Qed.

Lemma failed_job_is_isolated_witness :
  let s := Dispatcher.drain (Dispatcher.exec late_arrival Dispatcher.init) in
  Dispatcher.promises s !! 1 =
    Some (Dispatcher.RejectedWith "HTTP error! status: 500") /\
  Dispatcher.promises s !! 0 = Some (Dispatcher.Fulfilled 1) /\
  Dispatcher.promises s !! 2 = Some (Dispatcher.Fulfilled 3) /\
  Dispatcher.timeline s = [(0, 0%N); (1, 12900%N); (2, 25300%N)].
Proof.
  destruct (failed_job_is_isolated late_arrival 1
              {| Dispatcher.latency := 400;
                 Dispatcher.outcome :=
                   Dispatcher.Throws "HTTP error! status: 500" |}
              "HTTP error! status: 500" eq_refl eq_refl)
    as (Hk & Hothers & _).
  split; [exact Hk|].
  split; [exact (Hothers 0 _ ltac:(discriminate) eq_refl)|].
  split; [exact (Hothers 2 _ ltac:(discriminate) eq_refl)|].
  reflexivity.
Defined.

(** ** Dispatcher: the drain loop over time *)
Section DispatcherTiming.
Import Dispatcher.
Context {T E : Type}.
Implicit Types (s : State T E) (r : Request T E) (rs : list (Request T E)).
Implicit Types (q : list (Job T E)) (job : Job T E) (t wake : N) (n p : nat).
Local Arguments N.add : simpl never.
Local Arguments N.mul : simpl never.

(** Delivering an event does not change when the backlog will be done. *)
Lemma finish_fire s : suspended s <> Idle -> finish (fire s) = finish s.
Proof.
  destruct s as [q flag sus ps clk cs ar]. unfold finish, fire; simpl.
  destruct sus as [|job wake|wake]; [done| |]; intros _;
    unfold afterRequest, loop; simpl; destruct q as [|job' q']; simpl; lia.
Qed.

Lemma idle_finish s : suspended s = Idle -> finish s = clock s.
Proof. unfold finish. by intros ->. Qed.

(** Before that moment the drain loop is still at work. *)
Lemma run_until_busy fuel t : forall s,
  suspended s <> Idle -> (t < finish s)%N ->
  suspended (run_until fuel t s) <> Idle.
Proof.
  induction fuel as [|fuel IH]; intros s Hbusy Ht; [done|]. simpl.
  destruct (wakeup s) as [wake|] eqn:Hw.
  - destruct (N.leb_spec wake t) as [Hle|Hlt]; [|by destruct s].
    apply IH; [|by rewrite finish_fire].
    intros Hidle. pose proof (idle_finish _ Hidle) as Hfin.
    rewrite finish_fire, (clock_fire s wake Hw) in Hfin by done. lia.
  - by destruct s.
Qed.

Lemma elapse_idle_iff d s :
  suspended s <> Idle ->
  suspended (elapse d s) = Idle <-> (finish s <= clock s + d)%N.
Proof.
  intros Hbusy. unfold elapse. split.
  - intros Hidle. destruct (N.le_gt_cases (finish s) (clock s + d)) as [|Hlt];
      [done|].
    by apply (run_until_busy (S (events s))) in Hlt.
  - intros Hfin. by apply run_until_idle; [lia|].
Qed.



Lemma backlog_time_tickets rs : forall n,
  backlog_time (tickets_from n rs) =
  (total_latency rs + N.of_nat (length rs) * minRequestInterval)%N.
Proof.
  induction rs as [|r rs IH]; intros n; simpl; [done|].
  rewrite IH. lia.
Qed.

Lemma burst_state r rs :
  submit_all (r :: rs) init =
  {| requestQueue := tickets_from 1 rs; isProcessingQueue := true;
     suspended := AwaitRequest {| requestFn := r; ticket := 0 |} (0 + latency r);
     promises := [Pending] ++ replicate (length rs) Pending;
     clock := 0;
     calls := [({| requestFn := r; ticket := 0 |}, 0%N)];
     arrivals := [0%N] ++ replicate (length rs) 0%N |}.
Proof.
  unfold submit_all. cbn [map exec fold_left act].
  change (fold_left _ (map Submit rs) ?s) with (submit_all rs s).
  unfold queueRequest, processQueue, loop, init; simpl.
  by rewrite submit_all_busy.
Qed.

Lemma burst_finish rs :
  rs <> [] -> finish (submit_all rs init) = burst_duration rs.
Proof.
  destruct rs as [|r rs]; [done|]. intros _.
  rewrite burst_state. unfold finish, burst_duration; simpl.
  rewrite backlog_time_tickets, Nat.sub_0_r. lia.
Qed.

(** X2. [N] jobs submitted together keep the dispatcher busy for exactly the
    sum of their latencies plus [N - 1] intervals: [isProcessingQueue] is
    set before that much time has passed, and cleared from then on, with
    every promise settled. *)
Theorem burst_takes_its_duration rs d :
  rs <> [] ->
  let s := elapse d (submit_all rs init) in
  (isProcessingQueue s = true <-> (d < burst_duration rs)%N) /\
  ((burst_duration rs <= d)%N -> promises s = outcomes rs).
Proof.
  intros Hne s.
  destruct (consistent_exec (map Submit rs) [] 0 init consistent_init)
    as (n0 & Hc0).
  rewrite submissions_submit in Hc0. simpl in Hc0.
  fold (submit_all rs init) in Hc0.
  destruct (consistent_run_until (S (events (submit_all rs init)))
              (clock (submit_all rs init) + d) _ _ _ Hc0) as (n & Hc).
  fold (elapse d (submit_all rs init)) in Hc. fold s in Hc.
  assert (suspended (submit_all rs init) <> Idle) as Hbusy.
  { destruct rs as [|r rs']; [done|]. by rewrite burst_state. }
  assert (clock (submit_all rs init) = 0%N) as Hclk.
  { destruct rs as [|r rs']; [done|]. by rewrite burst_state. }
  pose proof (elapse_idle_iff d _ Hbusy) as Hiff. fold s in Hiff.
  rewrite (burst_finish rs Hne), Hclk in Hiff.
  pose proof Hc as (_ & _ & Hps & _ & Hflag & _).
  split.
  - split.
    + intros Htrue. destruct (N.lt_ge_cases d (burst_duration rs)) as [|Hge];
        [done|].
      assert (suspended s = Idle) as Hi by (apply Hiff; lia).
      apply Hflag in Hi. congruence.
    + intros Hlt. apply not_false_iff_true. intros Hf.
      apply Hflag, Hiff in Hf. lia.
  - intros Hge. assert (suspended s = Idle) as Hi by (apply Hiff; lia).
    rewrite Hps, (consistent_idle _ _ _ Hc Hi), take_ge, Nat.sub_diag by lia.
    simpl. by rewrite app_nil_r.
Qed.

Lemma burst_calls_gap rs j : forall t n i a ta b tb,
  burst_calls t n rs !! i = Some (a, ta) ->
  burst_calls t n rs !! (i + j) = Some (b, tb) ->
  (ta + N.of_nat j * minRequestInterval <= tb)%N.
Proof.
  induction j as [|j IH]; intros t n i a ta b tb Ha Hb.
  - rewrite Nat.add_0_r, Ha in Hb. injection Hb as <- <-. lia.
  - replace (i + S j) with (S (i + j)) in Hb by lia.
    destruct (lookup_lt_is_Some_2 (burst_calls t n rs) (i + j)) as [[c tc] Hc].
    { apply lookup_lt_Some in Hb. lia. }
    pose proof (IH _ _ _ _ _ _ _ Ha Hc) as Hle.
    destruct (burst_calls_spacing _ _ _ _ _ _ _ _ Hc Hb) as [_ ->]. lia.
Qed.

(** X3. Among jobs submitted together, a call and the fifth call after it
    start at least a minute apart: no more than five provider calls start
    within any sixty seconds. *)
Theorem burst_respects_five_per_minute rs i a ta b tb :
  let s := drain (submit_all rs init) in
  calls s !! i = Some (a, ta) -> calls s !! (i + 5) = Some (b, tb) ->
  (ta + 60000 <= tb)%N.
Proof.
  intros s Ha Hb. unfold s in *. rewrite burst_drained_calls in Ha, Hb.
  pose proof (burst_calls_gap _ 5 _ _ _ _ _ _ _ Ha Hb) as Hgap.
  unfold minRequestInterval in Hgap. lia.
Qed.

(** X4. Whatever the schedule, a job is never left in the queue without a
    drain loop at work: when [requestQueue] is not empty, [isProcessingQueue]
    is set and [processQueue] is suspended on a request or on its delay;
    and the flag is clear exactly when [processQueue] is not running. *)
Theorem queued_jobs_are_being_drained (acts : list (Action T E)) :
  let s := exec acts init in
  (requestQueue s <> [] -> isProcessingQueue s = true /\ suspended s <> Idle) /\
  (isProcessingQueue s = false <-> suspended s = Idle).
Proof.
  intros s.
  destruct (consistent_exec acts [] 0 init consistent_init)
    as (n & _ & _ & _ & _ & Hflag & Hq).
  fold s in Hflag, Hq. split; [|done].
  intros Hne. assert (suspended s <> Idle) as Hbusy by (intros Hi; auto).
  split; [|done]. apply not_false_iff_true. intros Hf.
  by apply Hflag in Hf.
Qed.

(** *** When a new job starts *)










(** *** How long a caller waits *)







End DispatcherTiming.

(** The three jobs of [three_jobs] take 0.9 + 0.4 + 0.7 s and two intervals:
    the dispatcher is busy at 25.999 s and idle at 26 s. *)
Lemma burst_takes_its_duration_witness :
  burst_duration three_jobs = 26000%N /\
  Dispatcher.isProcessingQueue
    (Dispatcher.elapse 25999 (Dispatcher.submit_all three_jobs Dispatcher.init))
  = true /\
  Dispatcher.promises
    (Dispatcher.elapse 26000 (Dispatcher.submit_all three_jobs Dispatcher.init))
  = Dispatcher.outcomes three_jobs.
Proof.
  split; [reflexivity|]. split.
  - apply (burst_takes_its_duration three_jobs 25999 ltac:(discriminate)).
    reflexivity.
  - apply (burst_takes_its_duration three_jobs 26000 ltac:(discriminate)).
    vm_compute. discriminate.
Defined.

(** Six one-second jobs: the first starts at 0 s, the sixth at 65 s. *)
Lemma burst_respects_five_per_minute_witness : (0 + 60000 <= 65000)%N.
Proof.
  apply (burst_respects_five_per_minute six_jobs 0
           {| Dispatcher.requestFn := quick_request; Dispatcher.ticket := 0 |} 0
           {| Dispatcher.requestFn := quick_request; Dispatcher.ticket := 5 |}
           65000); reflexivity.
Defined.

(** ** Binary64 arithmetic

    Facts about the specification of the primitive operations
    ([SpecFloat]), which is how the axioms of [FloatAxioms] describe them. *)
Section NumberFacts.
Import Js.
Open Scope float_scope.

Lemma SFcompare_refl x : x <> S754_nan -> SFcompare x x = Some Eq.
Proof.
  destruct x as [[]|[]| |[] m e]; simpl; try done; intros _;
    rewrite Z.compare_refl, Pos.compare_cont_refl; done.
Qed.

Lemma SFcompare_total x y :
  x <> S754_nan -> y <> S754_nan -> exists c, SFcompare x y = Some c.
Proof.
  destruct x as [[]|[]| |[] mx ex], y as [[]|[]| |[] my ey]; simpl; try done; eauto.
Qed.

Lemma SFltb_false_leb x y :
  x <> S754_nan -> y <> S754_nan -> SFltb x y = false -> SFleb y x = true.
Proof.
  unfold SFltb, SFleb.
  destruct x as [[]|[]| |[] mx ex], y as [[]|[]| |[] my ey]; simpl; try done;
    intros _ _; rewrite ?Pos.compare_cont_spec; simpl;
    destruct (Z.compare_spec ex ey), (Z.compare_spec ey ex);
    subst; simpl; try done; try lia;
    destruct (Pos.compare_spec mx my), (Pos.compare_spec my mx);
    subst; simpl; try done; try lia.
Qed.

Lemma SFltb_leb x y : SFltb x y = true -> SFleb x y = true.
Proof. unfold SFltb, SFleb. by destruct (SFcompare x y) as [[]|]. Qed.

Lemma SFleb_trans x y z :
  SFleb x y = true -> SFleb y z = true -> SFleb x z = true.
Proof.
  unfold SFleb.
  destruct x as [[]|[]| |[] mx ex], y as [[]|[]| |[] my ey],
           z as [[]|[]| |[] mz ez]; simpl; try done;
    rewrite ?Pos.compare_cont_spec; simpl;
    destruct (Z.compare_spec ex ey), (Z.compare_spec ey ez),
             (Z.compare_spec ex ez); subst; simpl; try done; try lia;
    destruct (Pos.compare_spec mx my), (Pos.compare_spec my mz),
             (Pos.compare_spec mx mz); subst; simpl; try done; try lia.
Qed.

(** NaN-freeness of the specification operations. *)
Lemma shr_1_nonneg mrs : (0 <= shr_m mrs)%Z -> (0 <= shr_m (shr_1 mrs))%Z.
Proof. destruct mrs as [[|[p|p|]|[p|p|]] r s]; simpl; lia. Qed.

Lemma iter_shr_1_nonneg p : forall mrs,
  (0 <= shr_m mrs)%Z -> (0 <= shr_m (SpecFloat.iter_pos shr_1 p mrs))%Z.
Proof. induction p; simpl; intros; auto using shr_1_nonneg. Qed.

Lemma shr_fexp_nonneg m e l :
  (0 <= m)%Z -> (0 <= shr_m (fst (shr_fexp prec emax m e l)))%Z.
Proof.
  intros Hm. unfold shr_fexp, shr.
  assert (0 <= shr_m (shr_record_of_loc m l))%Z by (by destruct l as [|[]]).
  destruct (_ - e)%Z; simpl; auto using iter_shr_1_nonneg.
Qed.

Lemma round_nearest_even_nonneg m l :
  (0 <= m)%Z -> (0 <= round_nearest_even m l)%Z.
Proof. destruct l as [|[]]; simpl; try lia. destruct (Z.even m); lia. Qed.

Lemma binary_round_aux_not_nan sx mx ex lx :
  (0 <= mx)%Z -> binary_round_aux prec emax sx mx ex lx <> S754_nan.
Proof.
  intros Hm. unfold binary_round_aux.
  pose proof (shr_fexp_nonneg mx ex lx Hm) as H1.
  destruct (shr_fexp prec emax mx ex lx) as [mrs' e']. simpl in H1.
  pose proof (shr_fexp_nonneg _ e' loc_Exact
                (round_nearest_even_nonneg _ (loc_of_shr_record mrs') H1)) as H2.
  destruct (shr_fexp prec emax _ e' loc_Exact) as [mrs'' e'']. simpl in H2.
  destruct (shr_m mrs''); [done| |lia].
  by destruct (_ <=? _)%Z.
Qed.

Lemma binary_round_not_nan sx mx ex :
  binary_round prec emax sx mx ex <> S754_nan.
Proof.
  unfold binary_round. destruct (shl_align _ _ _) as [mz ez].
  by apply binary_round_aux_not_nan.
Qed.

Lemma binary_normalize_not_nan m e szero :
  binary_normalize prec emax m e szero <> S754_nan.
Proof. destruct m; simpl; [done| |]; apply binary_round_not_nan. Qed.

Lemma SFsub_not_nan x y : SFfinite x -> SFfinite y -> SF64sub x y <> S754_nan.
Proof.
  destruct x, y; simpl; try done. intros _ _. apply binary_normalize_not_nan.
Qed.

Lemma SFdiv_not_nan x y :
  x <> S754_nan -> SFfinite y -> SF64div x y <> S754_nan.
Proof.
  destruct x as [sx|sx| |sx mx ex], y as [| | |sy my ey]; simpl; try done.
  intros _ _. unfold SFdiv_core_binary.
  set (m' := match (ex - ey - _)%Z with
             | Z0 => Z.pos mx | Z.pos _ => _ | Z.neg _ => 0%Z end).
  assert (0 <= m')%Z as Hm'.
  { unfold m'. destruct (ex - ey - _)%Z; try lia.
    apply Z.shiftl_nonneg. lia. }
  pose proof (Z.div_pos m' (Z.pos my) Hm' ltac:(lia)) as Hq.
  unfold Z.div in Hq. destruct (Z.div_eucl m' (Z.pos my)) as [q r].
  by apply binary_round_aux_not_nan.
Qed.

Lemma SFmul_not_nan x y :
  x <> S754_nan -> SFfinite y -> SF64mul x y <> S754_nan.
Proof.
  destruct x as [sx|sx| |sx mx ex], y as [| | |sy my ey]; simpl; try done.
  intros _ _. by apply binary_round_aux_not_nan.
Qed.

Lemma is_nan_spec x : is_nan x = true <-> Prim2SF x = S754_nan.
Proof.
  unfold is_nan. rewrite FloatAxioms.eqb_spec. unfold SFeqb. split.
  - intros H. destruct (Prim2SF x) eqn:Hx; try done;
      rewrite SFcompare_refl in H by done; done.
  - by intros ->.
Qed.

Lemma is_nan_false x : is_nan x = false <-> Prim2SF x <> S754_nan.
Proof.
  rewrite <- is_nan_spec. by destruct (is_nan x).
Qed.

Lemma of_uint63_not_nan n : Prim2SF (of_uint63 n) <> S754_nan.
Proof. rewrite FloatAxioms.of_uint63_spec. apply binary_normalize_not_nan. Qed.

Lemma opp_not_nan x : Prim2SF x <> S754_nan -> Prim2SF (- x) <> S754_nan.
Proof. rewrite FloatAxioms.opp_spec. by destruct (Prim2SF x). Qed.


Lemma Prim2SF_zero : Prim2SF 0 = S754_zero false.
Proof. reflexivity. Qed.

Lemma Prim2SF_hundred : SFfinite (Prim2SF 100).
Proof. by vm_compute. Qed.

Lemma mul_hundred_not_nan x :
  Prim2SF x <> S754_nan -> Prim2SF (x * 100) <> S754_nan.
Proof.
  intros Hx. rewrite FloatAxioms.mul_spec.
  apply SFmul_not_nan; [done | apply Prim2SF_hundred].
Qed.

Lemma div_hundred_not_nan x :
  Prim2SF x <> S754_nan -> Prim2SF (x / 100) <> S754_nan.
Proof.
  intros Hx. rewrite FloatAxioms.div_spec.
  apply SFdiv_not_nan; [done | apply Prim2SF_hundred].
Qed.

Lemma Math_round_not_nan x :
  Prim2SF x <> S754_nan -> Prim2SF (Math_round x) <> S754_nan.
Proof.
  intros Hx. unfold Math_round.
  destruct (Prim2SF x) as [s|s| |s m e] eqn:Hsf; try (by rewrite Hsf).
  destruct (0 <=? e)%Z; [by rewrite Hsf|].
  destruct (round_half_up s m e =? 0)%Z; [by destruct s; vm_compute|].
  destruct (round_half_up s m e <? 0)%Z;
    [apply opp_not_nan|]; apply of_uint63_not_nan.
Qed.

(** *** Prices *)

Lemma positive_finite c :
  positive c = true -> exists m e, Prim2SF c = S754_finite false m e.
Proof.
  unfold positive. rewrite andb_true_iff, !FloatAxioms.ltb_spec.
  change (Prim2SF 0) with (S754_zero false).
  change (Prim2SF infinity) with (S754_infinity false).
  destruct (Prim2SF c) as [[]|[]| |[] m e]; simpl; intros [? ?]; try done.
  eauto.
Qed.

Lemma positive_not_nan c : positive c = true -> Prim2SF c <> S754_nan.
Proof. intros (m & e & ->)%positive_finite. done. Qed.

Lemma positive_SFfinite c : positive c = true -> SFfinite (Prim2SF c).
Proof. intros (m & e & ->)%positive_finite. done. Qed.

Lemma positive_is_zero c : positive c = true -> is_zero c = false.
Proof.
  intros (m & e & Hc)%positive_finite. unfold is_zero.
  rewrite FloatAxioms.eqb_spec, Hc. reflexivity.
Qed.

(** A price is truthy: the [||] in [calculateTrend] keeps its left operand. *)
Lemma positive_truthy c : positive c = true -> truthy c = true.
Proof.
  intros Hc. unfold truthy. rewrite (positive_is_zero c Hc). simpl.
  apply negb_true_iff, not_true_iff_false. rewrite is_nan_spec.
  by apply positive_not_nan.
Qed.

(** *** The percentage of a series that does not move *)

Lemma sub_diag_zero_or_nan c : SFzero_or_nan (Prim2SF (c - c)).
Proof.
  rewrite FloatAxioms.sub_spec.
  destruct (Prim2SF c) as [[]|[]| |s m e]; simpl; try done.
  by rewrite Z.sub_diag.
Qed.

Lemma div_zero_or_nan x y :
  SFzero_or_nan (Prim2SF x) -> SFzero_or_nan (Prim2SF (x / y)).
Proof.
  rewrite FloatAxioms.div_spec.
  by destruct (Prim2SF x), (Prim2SF y).
Qed.

Lemma mul_hundred_zero_or_nan x :
  SFzero_or_nan (Prim2SF x) -> SFzero_or_nan (Prim2SF (x * 100)).
Proof.
  rewrite FloatAxioms.mul_spec. pose proof Prim2SF_hundred.
  by destruct (Prim2SF x), (Prim2SF 100).
Qed.

Lemma half_finite :
  exists m e, Prim2SF 0.5 = S754_finite false m e /\
              Prim2SF (-0.5) = S754_finite true m e.
Proof. by eexists _, _. Qed.

(** Neither above [0.5] nor below [-0.5]. *)
Lemma zero_or_nan_in_dead_zone x :
  SFzero_or_nan (Prim2SF x) -> (0.5 <? x) = false /\ (x <? -0.5) = false.
Proof.
  rewrite !FloatAxioms.ltb_spec.
  destruct half_finite as (m & e & -> & ->).
  by destruct (Prim2SF x) as [[]|[]| |[] mx ex].
Qed.

(** Above [0.5] is not below [-0.5]. *)
Lemma above_half_not_below x : (0.5 <? x) = true -> (x <? -0.5) = false.
Proof.
  rewrite !FloatAxioms.ltb_spec.
  destruct half_finite as (m & e & -> & ->).
  by destruct (Prim2SF x) as [[]|[]| |[] mx ex].
Qed.

(** *** Order, and [Math.max] / [Math.min] *)

Lemma leb_refl x : Prim2SF x <> S754_nan -> (x <=? x) = true.
Proof.
  intros Hx. rewrite FloatAxioms.leb_spec. unfold SFleb.
  by rewrite SFcompare_refl.
Qed.

Lemma leb_trans x y z :
  (x <=? y) = true -> (y <=? z) = true -> (x <=? z) = true.
Proof. rewrite !FloatAxioms.leb_spec. apply SFleb_trans. Qed.

Lemma ltb_leb x y : (x <? y) = true -> (x <=? y) = true.
Proof. rewrite FloatAxioms.leb_spec, FloatAxioms.ltb_spec. apply SFltb_leb. Qed.

Lemma ltb_false_leb x y :
  Prim2SF x <> S754_nan -> Prim2SF y <> S754_nan ->
  (x <? y) = false -> (y <=? x) = true.
Proof.
  rewrite FloatAxioms.leb_spec, FloatAxioms.ltb_spec. apply SFltb_false_leb.
Qed.

Lemma is_zero_spec x : is_zero x = true -> exists s, Prim2SF x = S754_zero s.
Proof.
  unfold is_zero. rewrite FloatAxioms.eqb_spec.
  change (Prim2SF zero) with (S754_zero false).
  destruct (Prim2SF x) as [s|[]| |[] m e]; try done. eauto.
Qed.

Lemma zeros_leb x y : is_zero x = true -> is_zero y = true -> (x <=? y) = true.
Proof.
  intros [sx Hx]%is_zero_spec [sy Hy]%is_zero_spec.
  by rewrite FloatAxioms.leb_spec, Hx, Hy.
Qed.

Lemma max_step_spec h x :
  Prim2SF h <> S754_nan -> Prim2SF x <> S754_nan ->
  (h <=? max_step h x) = true /\ (x <=? max_step h x) = true /\
  (max_step h x = h \/ max_step h x = x).
Proof.
  intros Hh Hx. unfold max_step.
  destruct (h <? x) eqn:Hlt; simpl.
  - auto using ltb_leb, leb_refl.
  - destruct (is_pos_zero x && is_neg_zero h) eqn:Hz.
    + apply andb_true_iff in Hz as [[Hzx _]%andb_true_iff [Hzh _]%andb_true_iff].
      auto using zeros_leb, leb_refl.
    + auto using ltb_false_leb, leb_refl.
Qed.

Lemma min_step_spec l x :
  Prim2SF l <> S754_nan -> Prim2SF x <> S754_nan ->
  (min_step l x <=? l) = true /\ (min_step l x <=? x) = true /\
  (min_step l x = l \/ min_step l x = x).
Proof.
  intros Hl Hx. unfold min_step.
  destruct (x <? l) eqn:Hlt; simpl.
  - auto using ltb_leb, leb_refl.
  - destruct (is_neg_zero x && is_pos_zero l) eqn:Hz.
    + apply andb_true_iff in Hz as [[Hzx _]%andb_true_iff [Hzl _]%andb_true_iff].
      auto using zeros_leb, leb_refl.
    + auto using ltb_false_leb, leb_refl.
Qed.

Lemma fold_max_spec xs : forall h,
  Prim2SF h <> S754_nan -> Forall (fun x => Prim2SF x <> S754_nan) xs ->
  let r := fold_left max_step xs h in
  (h <=? r) = true /\ (forall x, In x xs -> (x <=? r) = true) /\
  (r = h \/ In r xs).
Proof.
  induction xs as [|x xs IH]; intros h Hh Hxs; simpl.
  - auto using leb_refl.
  - apply Forall_cons in Hxs as [Hx Hxs].
    destruct (max_step_spec h x Hh Hx) as (Hh1 & Hx1 & Hsel).
    assert (Prim2SF (max_step h x) <> S754_nan) as Hn
      by (by destruct Hsel as [-> | ->]).
    destruct (IH _ Hn Hxs) as (Hle & Hall & Hin).
    split; [eauto using leb_trans|]. split.
    + intros y [<-|Hy]; eauto using leb_trans.
    + destruct Hin as [->|Hin]; [|by auto].
      destruct Hsel as [-> | ->]; auto.
Qed.

Lemma fold_min_spec xs : forall l,
  Prim2SF l <> S754_nan -> Forall (fun x => Prim2SF x <> S754_nan) xs ->
  let r := fold_left min_step xs l in
  (r <=? l) = true /\ (forall x, In x xs -> (r <=? x) = true) /\
  (r = l \/ In r xs).
Proof.
  induction xs as [|x xs IH]; intros l Hl Hxs; simpl.
  - auto using leb_refl.
  - apply Forall_cons in Hxs as [Hx Hxs].
    destruct (min_step_spec l x Hl Hx) as (Hl1 & Hx1 & Hsel).
    assert (Prim2SF (min_step l x) <> S754_nan) as Hn
      by (by destruct Hsel as [-> | ->]).
    destruct (IH _ Hn Hxs) as (Hle & Hall & Hin).
    split; [eauto using leb_trans|]. split.
    + intros y [<-|Hy]; eauto using leb_trans.
    + destruct Hin as [->|Hin]; [|by auto].
      destruct Hsel as [-> | ->]; auto.
Qed.




End NumberFacts.

(** ** Binary64 arithmetic: the sign of a difference *)
Section DifferenceFacts.
Import Js.
Open Scope float_scope.

(** Rounding keeps the sign it is given. *)
Lemma binary_round_aux_negative mx ex lx :
  (0 <= mx)%Z ->
  SFltb (S754_zero false) (binary_round_aux prec emax true mx ex lx) = false.
Proof.
  intros Hm. unfold binary_round_aux.
  destruct (shr_fexp prec emax mx ex lx) as [mrs' e'].
  destruct (shr_fexp prec emax _ e' loc_Exact) as [mrs'' e''].
  destruct (shr_m mrs''); [done| |done].
  by destruct (_ <=? _)%Z.
Qed.

Lemma binary_normalize_positive m e szero :
  SFltb (S754_zero false) (binary_normalize prec emax m e szero) = true ->
  (0 < m)%Z.
Proof.
  destruct m as [|m|m]; simpl.
  - by destruct szero.
  - lia.
  - unfold binary_round. destruct (shl_align _ _ _) as [mz ez].
    by rewrite binary_round_aux_negative.
Qed.

(** When [x - y] is positive, [y - x] is not. *)
Lemma SFsub_positive_one_way x y :
  SFltb (S754_zero false) (SF64sub x y) = true ->
  SFltb (S754_zero false) (SF64sub y x) = false.
Proof.
  destruct x as [sx|sx| |sx mx ex], y as [sy|sy| |sy my ey];
    try done; try (by destruct sx); try (by destruct sy);
    try (by destruct sx, sy).
  unfold SF64sub, SFsub. rewrite (Z.min_comm ey ex).
  set (a := cond_Zopp sx _). set (b := cond_Zopp sy _).
  intros Hpos%binary_normalize_positive.
  destruct (SFltb _ (binary_normalize _ _ (b - a) _ _)) eqn:Hneg; [|done].
  apply binary_normalize_positive in Hneg. lia.
Qed.

Lemma sub_positive_one_way x y : (0 <? x - y) = true -> (0 <? y - x) = false.
Proof.
  rewrite !FloatAxioms.ltb_spec, !FloatAxioms.sub_spec.
  change (Prim2SF 0) with (S754_zero false). apply SFsub_positive_one_way.
Qed.

End DifferenceFacts.

(** ** Insight engine *)
Section InsightFacts.
Import Js Insights.
Open Scope float_scope.
Implicit Types (series : list NormalizedDailyData) (window : nat).

Lemma roundToTwo_not_nan x :
  Prim2SF x <> S754_nan -> Prim2SF (roundToTwo x) <> S754_nan.
Proof.
  intros Hx. unfold roundToTwo.
  by apply div_hundred_not_nan, Math_round_not_nan, mul_hundred_not_nan.
Qed.

(** The percentage the engine computes from two closes. *)
Lemma percentage_not_nan current past :
  positive current = true -> positive past = true ->
  Prim2SF (current - past) <> S754_nan /\
  Prim2SF ((current - past) / past * 100) <> S754_nan.
Proof.
  intros Hc Hp.
  assert (Prim2SF (current - past) <> S754_nan) as Hsub.
  { rewrite FloatAxioms.sub_spec.
    apply SFsub_not_nan; by apply positive_SFfinite. }
  split; [done|].
  apply mul_hundred_not_nan. rewrite FloatAxioms.div_spec.
  apply SFdiv_not_nan; [done | by apply positive_SFfinite].
Qed.

(** With enough points and a truthy close at [window], that close is the
    past price. *)
Lemma pastPriceOf_truthy series window past :
  series !! window = Some past -> truthy (close past) = true ->
  pastPriceOf series window = Ok (close past).
Proof. intros Hp Ht. unfold pastPriceOf. by rewrite Hp, Ht. Qed.

Lemma pastPriceOf_total series window :
  (window + 1 <= length series)%nat ->
  exists price, pastPriceOf series window = Ok price.
Proof.
  intros Hlen. unfold pastPriceOf.
  destruct (lookup_lt_is_Some_2 series window ltac:(lia)) as [d Hd].
  destruct (lookup_lt_is_Some_2 series (length series - 1) ltac:(lia))
    as [dl Hdl].
  rewrite Hd, Hdl. simpl. destruct (truthy (close d)); eauto.
Qed.

Lemma calculateTrend_short series window :
  (length series < window + 1)%nat ->
  calculateTrend series window = Ok {| direction := flat; trendPercentage := 0 |}.
Proof.
  intros Hlen. unfold calculateTrend.
  by destruct (Nat.ltb_spec (length series) (window + 1)); [|lia].
Qed.

(** The trend in terms of the two prices it compares. *)
Lemma calculateTrend_long series window current pastPrice :
  (window + 1 <= length series)%nat ->
  series !! 0%nat = Some current ->
  pastPriceOf series window = Ok pastPrice ->
  let pct := (close current - pastPrice) / pastPrice * 100 in
  calculateTrend series window =
  Ok {| direction := if 0.5 <? pct then up
                     else if pct <? -0.5 then down else flat;
        trendPercentage := roundToTwo pct |}.
Proof.
  intros Hlen Hc Hp pct. unfold calculateTrend.
  destruct (Nat.ltb_spec (length series) (window + 1)); [lia|].
  by rewrite Hc, Hp.
Qed.

Lemma calculateTrend_total series window :
  exists t, calculateTrend series window = Ok t.
Proof.
  destruct (Nat.lt_ge_cases (length series) (window + 1)) as [Hlt|Hge].
  - rewrite calculateTrend_short by done. eauto.
  - destruct (lookup_lt_is_Some_2 series 0 ltac:(lia)) as [c Hc].
    destruct (pastPriceOf_total series window Hge) as [p Hp].
    rewrite (calculateTrend_long series window c p Hge Hc Hp). eauto.
Qed.

(** C6 (as amended).  For a series with at least one point,
    [calculateInsights] returns, and its [dayChange] is [{0, 0}] when there
    is no second point; otherwise [absolute] is the difference of the first
    two closes and [percentage] that difference over the second close times
    100, each rounded by [roundToTwo]. *)
Theorem dayChange_of_series
    (parseFloat : string -> float) (symbol : string) series
    (overview : option AlphaVantageOverview) :
  series <> [] ->
  exists insights,
    calculateInsights parseFloat symbol series overview = Ok insights /\
    dayChange insights =
      match series with
      | latest :: previous :: _ =>
          let absolute := close latest - close previous in
          {| absolute := roundToTwo absolute;
             percentage := roundToTwo (absolute / close previous * 100) |}
      | _ => {| absolute := 0; percentage := 0 |}
      end.
Proof.
  intros Hne. destruct series as [|latest rest]; [done|].
  unfold calculateInsights.
  destruct (calculateTrend_total (latest :: rest) 7) as [t7 H7].
  destruct (calculateTrend_total (latest :: rest) 30) as [t30 H30].
  cbn [length Nat.eqb]. rewrite H7, H30.
  destruct rest as [|previous rest]; simpl; eauto.
Qed.

(** [roundToTwo] is [Math.round(num * 100) / 100]. *)
Lemma roundToTwo_unfold num : roundToTwo num = Math_round (num * 100) / 100.
Proof. reflexivity. Qed.

(** C7.  With fewer than [window + 1] points the trend is flat with
    percentage 0.  Otherwise, the close at [window] being a price, the
    percentage is that of the first close against it, rounded, and the
    direction is [up] exactly when the unrounded percentage is above 0.5,
    [down] exactly when it is below -0.5, [flat] otherwise, so at exactly
    0.5 it is [flat].  A series whose closes are all equal is flat at every
    window.  All of this for every window, 7 and 30 among them. *)
Theorem trend_of_series series window :
  ((length series < window + 1)%nat ->
   calculateTrend series window =
   Ok {| direction := flat; trendPercentage := 0 |}) /\
  (forall current past,
     series !! 0%nat = Some current -> series !! window = Some past ->
     positive (close past) = true ->
     let pct := (close current - close past) / close past * 100 in
     exists t,
       calculateTrend series window = Ok t /\
       trendPercentage t = roundToTwo pct /\
       (direction t = up <-> (0.5 <? pct) = true) /\
       (direction t = down <-> (pct <? -0.5) = true) /\
       (direction t = flat <-> (0.5 <? pct) = false /\ (pct <? -0.5) = false) /\
       (pct = 0.5 -> direction t = flat)) /\
  ((forall d d', In d series -> In d' series -> close d = close d') ->
   exists t, calculateTrend series window = Ok t /\ direction t = flat).
Proof.
  split; [apply calculateTrend_short|]. split.
  - intros current past Hc Hp Hpos pct.
    assert (window + 1 <= length series)%nat as Hlen
      by (apply lookup_lt_Some in Hp; lia).
    pose proof (pastPriceOf_truthy _ _ _ Hp (positive_truthy _ Hpos)) as Hpast.
    rewrite (calculateTrend_long _ _ _ _ Hlen Hc Hpast). fold pct.
    eexists. split; [reflexivity|]. simpl. split; [done|].
    destruct (0.5 <? pct) eqn:Hup.
    + pose proof (above_half_not_below _ Hup) as Hdown. rewrite Hdown.
      repeat split; try done; try (intros [? ?]; done).
      intros Heq. rewrite Heq in Hup. done.
    + destruct (pct <? -0.5) eqn:Hdown;
        repeat split; try done; try (intros [? ?]; done).
      intros Heq. rewrite Heq in Hdown. done.
  - intros Hsame.
    destruct (Nat.lt_ge_cases (length series) (window + 1)) as [Hlt|Hge].
    { rewrite calculateTrend_short by done. eauto. }
    destruct (lookup_lt_is_Some_2 series 0 ltac:(lia)) as [c Hc].
    destruct (pastPriceOf_total series window Hge) as [p Hp].
    assert (p = close c) as ->.
    { unfold pastPriceOf in Hp.
      destruct (lookup_lt_is_Some_2 series window ltac:(lia)) as [d Hd].
      destruct (lookup_lt_is_Some_2 series (length series - 1) ltac:(lia))
        as [dl Hdl].
      rewrite Hd, Hdl in Hp. simpl in Hp.
      apply list_elem_of_lookup_2, list_elem_of_In in Hc, Hd, Hdl.
      destruct (truthy (close d)); injection Hp as <-; by apply Hsame. }
    rewrite (calculateTrend_long _ _ _ _ Hge Hc Hp).
    eexists. split; [reflexivity|]. simpl.
    destruct (zero_or_nan_in_dead_zone
                ((close c - close c) / close c * 100)) as [-> ->]; [|done].
    apply mul_hundred_zero_or_nan, div_zero_or_nan, sub_diag_zero_or_nan.
Qed.



(** C10 (as amended).  In a series whose closes are all prices (positive
    and finite): [calculateDayChange] does not divide when there is no second
    point, and with one it divides by a close that is not zero; with at
    least [window + 1] points the past price of [calculateTrend] is the close
    at [window], never the fallback, and not zero, and with fewer it does
    not divide.  Both functions return, and what they return is never
    NaN. *)
Theorem divisions_are_safe series :
  Forall (fun d => positive (close d) = true) series ->
  (series !! 1%nat = None ->
   calculateDayChange (series !! 0%nat) None =
   Ok {| absolute := 0; percentage := 0 |}) /\
  (forall latest previous,
     series !! 0%nat = Some latest -> series !! 1%nat = Some previous ->
     is_zero (close previous) = false /\
     exists change,
       calculateDayChange (Some latest) (Some previous) = Ok change /\
       is_nan (absolute change) = false /\
       is_nan (percentage change) = false) /\
  (forall window,
     ((length series < window + 1)%nat ->
      calculateTrend series window =
      Ok {| direction := flat; trendPercentage := 0 |}) /\
     ((window + 1 <= length series)%nat ->
      exists past t,
        series !! window = Some past /\
        pastPriceOf series window = Ok (close past) /\
        is_zero (close past) = false /\
        calculateTrend series window = Ok t /\
        is_nan (trendPercentage t) = false)).
Proof.
  intros Hprices.
  assert (forall i d, series !! i = Some d -> positive (close d) = true) as Hat.
  { intros i d Hd. rewrite Forall_forall in Hprices.
    by apply Hprices, list_elem_of_lookup_2 with i. }
  split; [done|]. split.
  - intros latest previous Hl Hp.
    pose proof (Hat _ _ Hl) as Hposl. pose proof (Hat _ _ Hp) as Hposp.
    split; [by apply positive_is_zero|].
    destruct (percentage_not_nan _ _ Hposl Hposp) as [Habs Hpct].
    eexists. split; [reflexivity|]. simpl.
    split; by apply is_nan_false, roundToTwo_not_nan.
  - intros window. split; [apply calculateTrend_short|].
    intros Hlen.
    destruct (lookup_lt_is_Some_2 series 0 ltac:(lia)) as [c Hc].
    destruct (lookup_lt_is_Some_2 series window ltac:(lia)) as [past Hp].
    pose proof (Hat _ _ Hc) as Hposc. pose proof (Hat _ _ Hp) as Hposp.
    pose proof (pastPriceOf_truthy _ _ _ Hp (positive_truthy _ Hposp)) as Hpast.
    destruct (percentage_not_nan _ _ Hposc Hposp) as [_ Hpct].
    exists past. eexists. split; [done|]. split; [done|].
    split; [by apply positive_is_zero|].
    rewrite (calculateTrend_long _ _ _ _ Hlen Hc Hpast).
    split; [reflexivity|]. simpl.
    by apply is_nan_false, roundToTwo_not_nan.
Qed.

End InsightFacts.

Section InsightExamples.
Import Js Insights.
Open Scope float_scope.
Open Scope string_scope.

Lemma half_percent_week_prices :
  Forall (fun d => positive (close d) = true) half_percent_week.
Proof. repeat constructor. Qed.

(** C6 (fails on the code as stated).  The empty series has fewer than two
    points, and [calculateInsights] throws on it: there is no [dayChange]. *)
Lemma empty_series_has_no_dayChange :
  (length ([] : list NormalizedDailyData) < 2)%nat /\
  calculateInsights Fetcher.decimal "AAPL" [] None =
    Throw "No data available to calculate insights" /\
  ~ exists insights,
      calculateInsights Fetcher.decimal "AAPL" [] None = Ok insights /\
      dayChange insights = {| absolute := 0; percentage := 0 |}.
Proof.
  split; [simpl; lia|]. split; [reflexivity|].
  intros (insights & Hok & _). discriminate Hok.
Qed.

Lemma dayChange_of_series_witness :
  exists insights,
    calculateInsights Fetcher.decimal "AAPL" half_percent_week None
      = Ok insights /\
    dayChange insights =
      {| absolute := roundToTwo (100.5 - 100.25);
         percentage := roundToTwo ((100.5 - 100.25) / 100.25 * 100) |}.
Proof.
  apply (dayChange_of_series Fetcher.decimal "AAPL" half_percent_week None).
  discriminate.
Defined.

(** A single point gives [{0, 0}]; two points give the rounded change. *)
Example dayChange_examples :
  calculateDayChange (Some (day 1 1 185.5)) None =
    Ok {| absolute := 0; percentage := 0 |} /\
  calculateDayChange (Some (day 1 1 100.5)) (Some (day 1 1 100)) =
    Ok {| absolute := 0.5; percentage := 0.5 |} /\
  roundToTwo 1.005 = 1 /\ roundToTwo (-0.125) = -0.12.
Proof. repeat split; by vm_compute. Qed.

Lemma trend_of_series_witness :
  exists t,
    calculateTrend half_percent_week 7 = Ok t /\
    trendPercentage t = roundToTwo ((100.5 - 100) / 100 * 100) /\
    (direction t = up <-> (0.5 <? (100.5 - 100) / 100 * 100)%float = true) /\
    (direction t = down <-> ((100.5 - 100) / 100 * 100 <? -0.5)%float = true) /\
    (direction t = flat <->
       (0.5 <? (100.5 - 100) / 100 * 100)%float = false /\
       ((100.5 - 100) / 100 * 100 <? -0.5)%float = false) /\
    (((100.5 - 100) / 100 * 100)%float = 0.5%float -> direction t = flat).
Proof.
  apply (proj1 (proj2 (trend_of_series half_percent_week 7))
           (day 100.5 100.5 100.5) (day 100 100 100));
    reflexivity.
Defined.

(** The boundary: a change of exactly 0.50 per cent is flat, one of 0.51 is
    up; a series that does not move is flat at both windows; five points
    are not enough for a week. *)
Example trend_examples :
  calculateTrend half_percent_week 7 =
    Ok {| direction := flat; trendPercentage := 0.5 |} /\
  calculateTrend (day 1 1 100.51 :: steady 6 100 ++ [day 1 1 100]) 7 =
    Ok {| direction := up; trendPercentage := 0.51 |} /\
  calculateTrend (steady 31 184.25) 7 =
    Ok {| direction := flat; trendPercentage := 0 |} /\
  calculateTrend (steady 31 184.25) 30 =
    Ok {| direction := flat; trendPercentage := 0 |} /\
  calculateTrend (steady 5 184.25) 7 =
    Ok {| direction := flat; trendPercentage := 0 |}.
Proof. repeat split; by vm_compute. Qed.


(** C10 (fails on the code as stated).  Two positive, finite closes, [2^1000]
    and [2^-1000]: the quotient overflows and the percentage is
    [Infinity], for the day change and for the trend over a week. *)
Lemma prices_overflow_the_percentage :
  Forall (fun d => positive (close d) = true) overflow_pair /\
  (exists change,
     calculateDayChange (overflow_pair !! 0%nat) (overflow_pair !! 1%nat)
       = Ok change /\
     percentage change = infinity /\ isFinite (percentage change) = false) /\
  Forall (fun d => positive (close d) = true) overflow_week /\
  (exists t,
     calculateTrend overflow_week 7 = Ok t /\
     trendPercentage t = infinity /\ isFinite (trendPercentage t) = false).
Proof.
  split; [repeat constructor|]. split.
  - eexists. split; [by vm_compute|]. split; reflexivity.
  - split; [repeat constructor|].
    eexists. split; [by vm_compute|]. split; reflexivity.
Qed.

Lemma divisions_are_safe_witness :
  exists past t,
    half_percent_week !! 7%nat = Some past /\
    pastPriceOf half_percent_week 7 = Ok (close past) /\
    is_zero (close past) = false /\
    calculateTrend half_percent_week 7 = Ok t /\
    is_nan (trendPercentage t) = false.
Proof.
  apply (proj2 (proj2 (proj2 (divisions_are_safe half_percent_week
                                half_percent_week_prices)) 7%nat)).
  simpl. lia.
Defined.

End InsightExamples.

(** ** Insight engine: NaN in the window, and the assembled result *)
Section InsightAssembly.
Import Js Insights.
Open Scope float_scope.
Implicit Types (series : list NormalizedDailyData).

Lemma Math_round_nan x :
  Prim2SF x = S754_nan -> Prim2SF (Math_round x) = S754_nan.
Proof. intros Hx. unfold Math_round. by rewrite Hx. Qed.

Lemma roundToTwo_nan x :
  Prim2SF x = S754_nan -> Prim2SF (roundToTwo x) = S754_nan.
Proof.
  intros Hx. unfold roundToTwo. rewrite FloatAxioms.div_spec.
  rewrite Math_round_nan; [done|].
  by rewrite FloatAxioms.mul_spec, Hx.
Qed.

(** [roundToTwo] neither makes a NaN nor loses one. *)
Lemma is_nan_roundToTwo x : is_nan (roundToTwo x) = is_nan x.
Proof.
  destruct (is_nan x) eqn:Hx.
  - apply is_nan_spec, roundToTwo_nan. by apply is_nan_spec.
  - apply is_nan_false, roundToTwo_not_nan. by apply is_nan_false.
Qed.

Lemma is_nan_Math_max xs : is_nan (Math_max xs) = existsb is_nan xs.
Proof.
  unfold Math_max. destruct (existsb is_nan xs) eqn:Hex; [done|].
  apply is_nan_false.
  assert (Forall (fun x => Prim2SF x <> S754_nan) xs) as Hxs.
  { apply Forall_forall. intros x Hx. apply is_nan_false.
    destruct (is_nan x) eqn:Hn; [|done].
    assert (existsb is_nan xs = true) as Habs
      by (apply existsb_exists; exists x; by rewrite <- list_elem_of_In).
    congruence. }
  destruct (fold_max_spec xs neg_infinity ltac:(done) Hxs) as (_ & _ & [->|Hin]);
    [done|].
  rewrite Forall_forall in Hxs. apply Hxs. by rewrite list_elem_of_In.
Qed.

Lemma is_nan_Math_min xs : is_nan (Math_min xs) = existsb is_nan xs.
Proof.
  unfold Math_min. destruct (existsb is_nan xs) eqn:Hex; [done|].
  apply is_nan_false.
  assert (Forall (fun x => Prim2SF x <> S754_nan) xs) as Hxs.
  { apply Forall_forall. intros x Hx. apply is_nan_false.
    destruct (is_nan x) eqn:Hn; [|done].
    assert (existsb is_nan xs = true) as Habs
      by (apply existsb_exists; exists x; by rewrite <- list_elem_of_In).
    congruence. }
  destruct (fold_min_spec xs infinity ltac:(done) Hxs) as (_ & _ & [->|Hin]);
    [done|].
  rewrite Forall_forall in Hxs. apply Hxs. by rewrite list_elem_of_In.
Qed.

Lemma existsb_map_Exists (f : NormalizedDailyData -> float) series :
  existsb is_nan (map f series) = true <->
  Exists (fun d => is_nan (f d) = true) series.
Proof.
  induction series as [|d ds IH]; simpl.
  - split; [done|]. by intros ?%Exists_nil.
  - rewrite orb_true_iff, Exists_cons, IH. done.
Qed.

(** X10.  With 30 entries or more, both fields of the range are present,
    and [high52Week] is NaN exactly when the high of one of the entries in
    the window (the first [min(252, length)]) is NaN; likewise [low52Week]
    and the lows.  One unparsable high or low anywhere in the window takes
    the whole field with it, and nothing else does. *)
Theorem nan_in_the_window_is_nan_in_the_range series :
  (30 <= length series)%nat ->
  let relevantData := take (Nat.min 252 (length series)) series in
  exists highest lowest,
    calculate52WeekHighLow series =
      {| high52Week := Some highest; low52Week := Some lowest |} /\
    (is_nan highest = true <->
     Exists (fun d => is_nan (high d) = true) relevantData) /\
    (is_nan lowest = true <->
     Exists (fun d => is_nan (low d) = true) relevantData).
Proof.
  intros Hlen relevantData. unfold calculate52WeekHighLow.
  destruct (Nat.ltb_spec (Nat.min 252 (length series)) 30) as [Hlt|_]; [lia|].
  fold relevantData. eexists _, _. split; [reflexivity|].
  rewrite !is_nan_roundToTwo, is_nan_Math_max, is_nan_Math_min.
  split; apply existsb_map_Exists.
Qed.

(** Thirty-one days, the high of the first one NaN: the 52-week high is NaN,
    the low is not. *)
Lemma nan_in_the_window_is_nan_in_the_range_witness :
  exists highest lowest,
    calculate52WeekHighLow unparsed_month =
      {| high52Week := Some highest; low52Week := Some lowest |} /\
    (is_nan highest = true <->
     Exists (fun d => is_nan (high d) = true)
       (take (Nat.min 252 (length unparsed_month)) unparsed_month)) /\
    (is_nan lowest = true <->
     Exists (fun d => is_nan (low d) = true)
       (take (Nat.min 252 (length unparsed_month)) unparsed_month)).
Proof.
  apply (nan_in_the_window_is_nan_in_the_range unparsed_month).
  vm_compute. lia.
Defined.

Example unparsed_month_range :
  calculate52WeekHighLow unparsed_month =
    {| high52Week := Some nan; low52Week := Some 70 |}.
Proof. reflexivity. Qed.

Section Assembly.
Context (parseFloat : string -> float).

Lemma calculateDayChange_total (latest : NormalizedDailyData) previous :
  exists change, calculateDayChange (Some latest) previous = Ok change.
Proof. destruct previous; simpl; eauto. Qed.

(** The record [calculateInsights] returns on a series with an entry. *)
Lemma calculateInsights_returns
    (symbol : string) series (overview : option AlphaVantageOverview)
    latest rest :
  series = latest :: rest ->
  exists change week month,
    calculateDayChange (Some latest) (head rest) = Ok change /\
    calculateTrend series 7 = Ok week /\
    calculateTrend series 30 = Ok month /\
    calculateInsights parseFloat symbol series overview =
      Ok {| Insights.symbol := symbol;
            latestPrice := close latest;
            latestDate := date latest;
            dayChange := change;
            trend7Day := week;
            trend30Day := month;
            insightsVolume := volume latest;
            insightsHigh52Week := high52Week (calculate52WeekHighLow series);
            insightsLow52Week := low52Week (calculate52WeekHighLow series);
            peRatio := parsePERatio parseFloat overview |}.
Proof.
  intros ->.
  destruct (calculateDayChange_total latest (head rest)) as [change Hc].
  destruct (calculateTrend_total (latest :: rest) 7) as [week Hw].
  destruct (calculateTrend_total (latest :: rest) 30) as [month Hm].
  exists change, week, month. repeat split; try done.
  unfold calculateInsights.
  change (length (latest :: rest) =? 0)%nat with false.
  cbv beta iota zeta.
  change ((latest :: rest) !! 0%nat) with (Some latest).
  replace ((latest :: rest) !! 1%nat) with (head rest) by (by destruct rest).
  rewrite Hc, Hw, Hm. reflexivity.
Qed.

(** X11.  [calculateInsights] throws exactly on the empty series, with
    [No data available to calculate insights].  On any other series it
    returns: the symbol is the one passed in, the price, date and volume
    are those of the first entry, the three calculations are what the
    helpers return on the whole series (they do not throw), the range is
    present exactly when there are 30 entries or more, and without an
    overview there is no P/E ratio. *)
Theorem insights_are_assembled_from_the_first_entry
    (symbol : string) series (overview : option AlphaVantageOverview) :
  (series = [] <->
   calculateInsights parseFloat symbol series overview =
     Throw "No data available to calculate insights") /\
  (forall latest rest, series = latest :: rest ->
   exists change week month,
     calculateDayChange (Some latest) (head rest) = Ok change /\
     calculateTrend series 7 = Ok week /\
     calculateTrend series 30 = Ok month /\
     calculateInsights parseFloat symbol series overview =
       Ok {| Insights.symbol := symbol;
             latestPrice := close latest;
             latestDate := date latest;
             dayChange := change;
             trend7Day := week;
             trend30Day := month;
             insightsVolume := volume latest;
             insightsHigh52Week := high52Week (calculate52WeekHighLow series);
             insightsLow52Week := low52Week (calculate52WeekHighLow series);
             peRatio := parsePERatio parseFloat overview |} /\
     (is_Some (high52Week (calculate52WeekHighLow series)) <->
      (30 <= length series)%nat) /\
     (is_Some (low52Week (calculate52WeekHighLow series)) <->
      (30 <= length series)%nat) /\
     parsePERatio parseFloat None = None).
Proof.
  pose proof (calculateInsights_returns symbol series
                overview) as Hreturns.
  split.
  - split; [by intros ->|].
    destruct series as [|latest rest]; [done|].
    destruct (Hreturns latest rest eq_refl) as (? & ? & ? & _ & _ & _ & ->).
    done.
  - intros latest rest Hseries.
    destruct (Hreturns latest rest Hseries)
      as (change & week & month & Hc & Hw & Hm & Hres).
    exists change, week, month. repeat split; try done;
      unfold calculate52WeekHighLow;
      destruct (Nat.ltb_spec (Nat.min 252 (length series)) 30);
      simpl; try lia; try done; try (by intros [? [=]]).
Qed.

End Assembly.
End InsightAssembly.

(** ** Cache-aside fetcher *)
Section FetcherFacts.
Import Js Fetcher.
Open Scope string_scope.
Context (toUpperCase : string -> string).
Context (parseFloat : string -> float) (getTime : string -> float).

Abbreviation getCached := (getCachedStockData toUpperCase).
Abbreviation cacheData := (cacheStockData toUpperCase).
Abbreviation fetchDaily := (fetchDailyTimeSeries toUpperCase).
Abbreviation getDaily := (getDailyTimeSeries toUpperCase parseFloat getTime).
Abbreviation normalize := (normalizeTimeSeriesData parseFloat getTime).

Ltac run_async :=
  unfold mbind, async_bind, mret, async_ret, print; simpl.


(** The lookup changes nothing but the console. *)
Lemma getCachedStockData_world symbol dataType w :
  exists lines,
    snd (getCached symbol dataType w) = with_console (console w ++ lines) w.
Proof.
  unfold getCachedStockData, select_single. run_async.
  destruct w as [rows sf uf prov disp con]; simpl.
  destruct sf as [err|]; simpl.
  - destruct (negb (code err =? "PGRST116")); simpl.
    + by eexists [_].
    + exists []. by rewrite app_nil_r.
  - exists []. rewrite app_nil_r.
    destruct (rows !! _) as [row|]; [|done].
    by destruct (_ <=? _)%N.
Qed.

(** No row, a stale row, or a failing select: the lookup gives [null]. *)
Lemma getCachedStockData_miss symbol dataType w :
  (selectFault w <> None \/
   stock_data_cache w !! (toUpperCase symbol, dataType) = None \/
   exists row,
     stock_data_cache w !! (toUpperCase symbol, dataType) = Some row /\
     (day_ms < now w - fetched_at row)%N) ->
  fst (getCached symbol dataType w) = Ok None.
Proof.
  intros Hmiss. unfold getCachedStockData, select_single. run_async.
  destruct (selectFault w) as [err|] eqn:Hf.
  - by destruct (negb (code err =? "PGRST116")).
  - destruct Hmiss as [?|[Hnone|(row & Hrow & Hold)]]; [done| |].
    + by rewrite Hnone.
    + rewrite Hrow.
      destruct (N.leb_spec (now w - day_ms) (fetched_at row)) as [Hle|_];
        [lia|done].
Qed.

(** [cacheStockData] never throws: a failing upsert is printed. *)
Lemma cacheStockData_total symbol dataType d w :
  cacheData symbol dataType d w =
  (Ok (),
   match upsertFault w with
   | Some err =>
       with_console
         (console w ++
          [console_error ("Error caching stock data: " ++ message err)]) w
   | None =>
       with_cache
         (<[(toUpperCase symbol, dataType) :=
              {| data := d; fetched_at := now w |}]> (stock_data_cache w)) w
   end).
Proof.
  unfold cacheStockData, upsert. run_async. by destruct (upsertFault w).
Qed.

(** Awaiting a queued fetch that succeeds at the provider. *)
Lemma queueRequest_returns symbol w latency reply d :
  sane w ->
  provider w (toUpperCase symbol) = (latency, reply) ->
  fetchOutcome symbol reply = Dispatcher.Returns d ->
  let job := Dispatcher.queueRequest (fetchDaily symbol w) (dispatcher w) in
  let d' := Dispatcher.await (fst job) (snd job) in
  queueRequest (fetchDaily symbol) w = (Ok d, with_dispatcher d' w) /\
  length (Dispatcher.promises d') = S (length (Dispatcher.promises (dispatcher w))).
Proof.
  intros (rs & n & Hc) Hprov Hout job d'.
  destruct (queueRequest_await rs n (dispatcher w) (fetchDaily symbol w) Hc)
    as (Hp & Hlen & _).
  fold job in Hp, Hlen. fold d' in Hp, Hlen.
  split; [|done].
  unfold queueRequest. fold job. destruct job as [p s1] eqn:Hjob.
  simpl in *. fold d'. rewrite Hp.
  unfold fetchDailyTimeSeries. rewrite Hprov. simpl. by rewrite Hout.
Qed.

(** The path taken after a miss. *)
Lemma getDailyTimeSeries_after_miss symbol w latency reply d :
  sane w ->
  fst (getCached symbol "TIME_SERIES_DAILY" w) = Ok None ->
  provider w (toUpperCase symbol) = (latency, reply) ->
  fetchOutcome symbol reply = Dispatcher.Returns d ->
  let job := Dispatcher.queueRequest (fetchDaily symbol w) (dispatcher w) in
  exists w',
    getDaily symbol w =
      (Ok {| symbol := meta_symbol d;
             lastRefreshed := meta_lastRefreshed d;
             dailyData := normalize (timeSeriesDaily d);
             fromCache := false |}, w') /\
    dispatcher w' = Dispatcher.await (fst job) (snd job) /\
    length (Dispatcher.promises (dispatcher w')) =
      S (length (Dispatcher.promises (dispatcher w))) /\
    match upsertFault w with
    | Some err =>
        stock_data_cache w' = stock_data_cache w /\
        last (console w') =
          Some (console_error ("Error caching stock data: " ++ message err))
    | None =>
        stock_data_cache w' =
          <[(toUpperCase symbol, "TIME_SERIES_DAILY") :=
              {| data := d; fetched_at := now w' |}]> (stock_data_cache w)
    end.
Proof.
  intros Hsane Hmiss Hprov Hout job.
  destruct (getCachedStockData_world symbol "TIME_SERIES_DAILY" w)
    as (lines & Hw).
  destruct (getCached symbol "TIME_SERIES_DAILY" w) as [res w1] eqn:Hget.
  simpl in Hmiss, Hw. subst res w1.
  unfold getDailyTimeSeries. unfold mbind at 1, async_bind at 1.
  rewrite Hget. unfold mbind at 1, async_bind at 1. unfold print.
  set (w2 := with_console _ (with_console _ w)).
  assert (sane w2) as Hsane2 by done.
  destruct (queueRequest_returns symbol w2 latency reply d Hsane2 Hprov Hout)
    as [Hq Hlen].
  unfold mbind at 1, async_bind at 1. rewrite Hq.
  unfold mbind at 1, async_bind at 1. rewrite cacheStockData_total.
  change (upsertFault (with_dispatcher _ _)) with (upsertFault w).
  eexists. split; [reflexivity|].
  destruct (upsertFault w) as [err|] eqn:Hup.
  - repeat split; [exact Hlen|]. simpl. by rewrite last_snoc.
  - repeat split. exact Hlen.
Qed.


(** C5.  After a miss and a fetch that succeeds at the provider, a failing
    upsert is printed on the console and nothing more: the caller receives
    the fresh series normalized, with [fromCache = false], and the cache
    table is as it was. *)
Theorem cache_write_failure_is_swallowed symbol w latency reply d err :
  sane w ->
  fst (getCached symbol "TIME_SERIES_DAILY" w) = Ok None ->
  provider w (toUpperCase symbol) = (latency, reply) ->
  fetchOutcome symbol reply = Dispatcher.Returns d ->
  upsertFault w = Some err ->
  exists w',
    getDaily symbol w =
      (Ok {| symbol := meta_symbol d;
             lastRefreshed := meta_lastRefreshed d;
             dailyData := normalize (timeSeriesDaily d);
             fromCache := false |}, w') /\
    last (console w') =
      Some (console_error ("Error caching stock data: " ++ message err)) /\
    stock_data_cache w' = stock_data_cache w.
Proof.
  intros Hsane Hmiss Hprov Hout Hup.
  destruct (getDailyTimeSeries_after_miss symbol w latency reply d
              Hsane Hmiss Hprov Hout) as (w' & Hres & _ & _ & Hcache).
  rewrite Hup in Hcache. destruct Hcache as [Hrows Hlog].
  by exists w'.
Qed.

End FetcherFacts.

Section FetcherExamples.
Import Js Fetcher.
Open Scope string_scope.

Abbreviation example_getDaily :=
  (getDailyTimeSeries Symbols.asciiUpperCase decimal date_number).

Lemma idle_world_sane rows sf uf prov t con :
  sane {| stock_data_cache := rows; selectFault := sf; upsertFault := uf;
          provider := prov; dispatcher := idle_at t; console := con |}.
Proof.
  destruct (consistent_run_until (T:=AlphaVantageResponse) (E:=string)
              1 (0 + t) [] 0 Dispatcher.init consistent_init) as (n & Hn).
  by exists [], n.
Qed.



Lemma cache_write_failure_is_swallowed_witness :
  exists w',
    example_getDaily "aapl" world_readonly =
      (Ok {| symbol := meta_symbol example_series;
             lastRefreshed := meta_lastRefreshed example_series;
             dailyData :=
               normalizeTimeSeriesData decimal date_number
                 (timeSeriesDaily example_series);
             fromCache := false |}, w') /\
    last (console w') =
      Some (console_error
              ("Error caching stock data: " ++
               "new row violates row-level security policy")) /\
    stock_data_cache w' = stock_data_cache world_readonly.
Proof.
  apply (cache_write_failure_is_swallowed Symbols.asciiUpperCase decimal
           date_number "aapl" world_readonly 800%N
           (Response true 200
              {| json_ErrorMessage := None; json_Note := None;
                 json_data := Some example_series |})
           example_series
           {| code := "42501";
              message := "new row violates row-level security policy" |}).
  - apply idle_world_sane.
  - reflexivity.
  - reflexivity.
  - reflexivity.
  - reflexivity.
Defined.

End FetcherExamples.

(** ** Cache-aside fetcher: failures, the row that is written, and what a
       read leaves alone *)
Section FetcherPaths.
Import Js Fetcher.
Open Scope string_scope.
Context (toUpperCase : string -> string).
Context (parseFloat : string -> float) (getTime : string -> float).

Abbreviation getCached' := (getCachedStockData toUpperCase).
Abbreviation fetchDaily' := (fetchDailyTimeSeries toUpperCase).
Abbreviation getDaily' := (getDailyTimeSeries toUpperCase parseFloat getTime).
Abbreviation normalize' := (normalizeTimeSeriesData parseFloat getTime).

Ltac run_async :=
  unfold mbind, async_bind, mret, async_ret, print; simpl.

(** Awaiting a queued fetch: the caller gets what the provider's reply
    amounts to. *)
Lemma queueRequest_settles symbol w :
  sane w ->
  let job := Dispatcher.queueRequest (fetchDaily' symbol w) (dispatcher w) in
  let d' := Dispatcher.await (fst job) (snd job) in
  queueRequest (fetchDaily' symbol) w =
    (match fetchOutcome symbol (snd (provider w (toUpperCase symbol))) with
     | Dispatcher.Returns d => Ok d
     | Dispatcher.Throws e => Throw e
     end, with_dispatcher d' w) /\
  length (Dispatcher.promises d') = S (length (Dispatcher.promises (dispatcher w))) /\
  sane (with_dispatcher d' w).
Proof.
  intros (rs & n & Hc) job d'.
  destruct (queueRequest_await rs n (dispatcher w) (fetchDaily' symbol w) Hc)
    as (Hp & Hlen & n' & Hc').
  fold job in Hp, Hlen, Hc'. fold d' in Hp, Hlen, Hc'.
  split; [|split; [done|by exists (rs ++ [fetchDaily' symbol w])%list, n']].
  unfold queueRequest. fold job. destruct job as [p s1] eqn:Hjob.
  simpl in *. fold d'. rewrite Hp.
  unfold fetchDailyTimeSeries.
  destruct (provider w (toUpperCase symbol)) as [latency reply]. simpl.
  by destruct (fetchOutcome symbol reply).
Qed.

(** The path taken after a miss, whatever the provider replies. *)
Lemma getDailyTimeSeries_miss_path symbol w :
  sane w ->
  fst (getCached' symbol "TIME_SERIES_DAILY" w) = Ok None ->
  exists lines,
    let w2 := with_console (console w ++ lines) w in
    let job := Dispatcher.queueRequest (fetchDaily' symbol w) (dispatcher w) in
    let w3 := with_dispatcher (Dispatcher.await (fst job) (snd job)) w2 in
    last lines =
      Some (console_log
              ("Fetching fresh data for " ++ symbol ++ " from Alpha Vantage")) /\
    length (Dispatcher.promises (dispatcher w3)) =
      S (length (Dispatcher.promises (dispatcher w))) /\
    sane w3 /\
    getDaily' symbol w =
      match fetchOutcome symbol (snd (provider w (toUpperCase symbol))) with
      | Dispatcher.Throws e => (Throw e, w3)
      | Dispatcher.Returns d =>
          (Ok {| symbol := meta_symbol d;
                 lastRefreshed := meta_lastRefreshed d;
                 dailyData := normalize' (timeSeriesDaily d);
                 fromCache := false |},
           snd (cacheStockData toUpperCase symbol "TIME_SERIES_DAILY" d w3))
      end.
Proof.
  intros Hsane Hmiss.
  destruct (getCachedStockData_world toUpperCase symbol "TIME_SERIES_DAILY" w)
    as (lines & Hw).
  destruct (getCached' symbol "TIME_SERIES_DAILY" w) as [res w1] eqn:Hget.
  simpl in Hmiss, Hw. subst res w1.
  exists (lines ++
          [console_log
             ("Fetching fresh data for " ++ symbol ++ " from Alpha Vantage")])%list.
  intros w2 job w3.
  assert (sane w2) as Hsane2 by done.
  destruct (queueRequest_settles symbol w2 Hsane2) as (Hq & Hlen & Hsane3).
  split; [by rewrite last_snoc|]. split; [exact Hlen|]. split; [exact Hsane3|].
  unfold getDailyTimeSeries. unfold mbind at 1, async_bind at 1.
  rewrite Hget. unfold mbind at 1, async_bind at 1. unfold print.
  cbn [with_console console]. rewrite <- app_assoc.
  change (with_console _ (with_console _ w)) with w2.
  unfold mbind at 1, async_bind at 1. rewrite Hq.
  change (provider w2) with (provider w).
  change (Dispatcher.await _ _) with (dispatcher w3).
  change (with_dispatcher (dispatcher w3) w2) with w3.
  destruct (fetchOutcome symbol _) as [d|e]; [|done].
  unfold mbind at 1, async_bind at 1.
  by rewrite (cacheStockData_total toUpperCase).
Qed.

(** What a read can do to the world outside the dispatcher and the
    console. *)
Lemma getDailyTimeSeries_frame symbol w :
  let w' := snd (getDaily' symbol w) in
  selectFault w' = selectFault w /\ upsertFault w' = upsertFault w /\
  provider w' = provider w /\
  (stock_data_cache w' = stock_data_cache w \/
   exists d,
     stock_data_cache w' =
       <[(toUpperCase symbol, "TIME_SERIES_DAILY") :=
           {| data := d; fetched_at := now w' |}]> (stock_data_cache w)).
Proof.
  intros w'. subst w'.
  destruct (getDaily' symbol w) as [res wf] eqn:Hrun. simpl. revert Hrun.
  destruct (getCachedStockData_world toUpperCase symbol "TIME_SERIES_DAILY" w)
    as (lines & Hw).
  unfold getDailyTimeSeries. unfold mbind at 1, async_bind at 1.
  destruct (getCached' symbol "TIME_SERIES_DAILY" w) as [res1 w1].
  simpl in Hw. subst w1. destruct res1 as [[cached|]|m]; simpl.
  - run_async. intros [= <- <-]. by repeat split; [..|left].
  - unfold mbind at 1, async_bind at 1. unfold print.
    unfold mbind at 1, async_bind at 1. unfold queueRequest.
    destruct (Dispatcher.queueRequest _ _) as [p s1].
    destruct (Dispatcher.promises _ !! p) as [[|d|e]|];
      try (intros [= <- <-]; by repeat split; [..|left]).
    unfold mbind at 1, async_bind at 1.
    rewrite (cacheStockData_total toUpperCase).
    change (upsertFault (with_dispatcher _ _)) with (upsertFault w).
    destruct (upsertFault w) as [err|] eqn:Hup; simpl; intros [= <- <-].
    + by repeat split; [..|left].
    + repeat split; [done|]. right. by exists d.
  - intros [= <- <-]. by repeat split; [..|left].
Qed.

(** X5.  When the lookup misses and the fetch fails (the request is
    rejected, the status is not 2xx, or the body carries an error, a note
    or no series), the read throws the error of [fetchDailyTimeSeries]
    unchanged.  One job was dispatched for it, nothing is written to the
    cache table, and nothing is printed after the line that announces the
    fetch. *)
Theorem fetch_failure_reaches_the_caller symbol w e :
  sane w ->
  fst (getCached' symbol "TIME_SERIES_DAILY" w) = Ok None ->
  fetchOutcome symbol (snd (provider w (toUpperCase symbol)))
    = Dispatcher.Throws e ->
  exists w',
    getDaily' symbol w = (Throw e, w') /\
    stock_data_cache w' = stock_data_cache w /\
    length (Dispatcher.promises (dispatcher w')) =
      S (length (Dispatcher.promises (dispatcher w))) /\
    last (console w') =
      Some (console_log
              ("Fetching fresh data for " ++ symbol ++ " from Alpha Vantage")).
Proof.
  intros Hsane Hmiss Hout.
  destruct (getDailyTimeSeries_miss_path symbol w Hsane Hmiss)
    as (lines & Hlast & Hlen & _ & Hres).
  rewrite Hout in Hres. eexists. split; [exact Hres|].
  split; [done|]. split; [exact Hlen|].
  simpl. destruct lines as [|line lines]; [done|].
  rewrite <- Hlast. apply last_app_cons.
Qed.



(** X7.  A read touches no row of the cache table but the one of its own
    symbol, and it never removes a row. *)
Theorem read_leaves_other_rows_alone symbol w key :
  let w' := snd (getDailyTimeSeries toUpperCase parseFloat getTime symbol w) in
  (key <> (toUpperCase symbol, "TIME_SERIES_DAILY") ->
   stock_data_cache w' !! key = stock_data_cache w !! key) /\
  (is_Some (stock_data_cache w !! key) ->
   is_Some (stock_data_cache w' !! key)).
Proof.
  intros w'.
  destruct (getDailyTimeSeries_frame symbol w) as (_ & _ & _ & [Hsame|[d Hput]]);
    fold w' in Hsame || fold w' in Hput.
  - by rewrite Hsame.
  - rewrite Hput. split.
    + intros Hne. by rewrite lookup_insert_ne.
    + intros Hsome.
      destruct (decide (key = (toUpperCase symbol, "TIME_SERIES_DAILY")))
        as [->|Hne].
      * by rewrite lookup_insert_eq.
      * by rewrite lookup_insert_ne.
Qed.

(** What it takes for [fetchDailyTimeSeries] to resolve. *)
Lemma fetchOutcome_returns symbol reply d :
  fetchOutcome symbol reply = Dispatcher.Returns d <->
  exists status body,
    reply = Response true status body /\
    present (json_ErrorMessage body) = None /\
    present (json_Note body) = None /\
    json_data body = Some d.
Proof.
  split.
  - destruct reply as [[error|]|[] status body]; simpl; try done.
    destruct (present (json_ErrorMessage body)) eqn:He; [done|].
    destruct (present (json_Note body)) eqn:Hn; [done|].
    destruct (json_data body) as [d'|] eqn:Hd; [|done].
    intros [= ->]. by exists status, body.
  - intros (status & body & -> & He & Hn & Hd). simpl.
    by rewrite He, Hn, Hd.
Qed.

(** X8.  After a miss the read returns exactly when the provider's
    response is ok and its body has no non-empty ['Error Message'], no
    non-empty ['Note'] and a ['Time Series (Daily)']; what it returns is
    that body, normalized, with [fromCache = false].  A body with a note is
    a failure even when it carries a series too; a failing cache write is
    none. *)
Theorem read_returns_only_a_clean_series symbol w :
  sane w ->
  fst (getCached' symbol "TIME_SERIES_DAILY" w) = Ok None ->
  forall result,
    fst (getDaily' symbol w) = Ok result <->
    exists status body d,
      snd (provider w (toUpperCase symbol)) = Response true status body /\
      present (json_ErrorMessage body) = None /\
      present (json_Note body) = None /\
      json_data body = Some d /\
      result = {| symbol := meta_symbol d;
                  lastRefreshed := meta_lastRefreshed d;
                  dailyData := normalize' (timeSeriesDaily d);
                  fromCache := false |}.
Proof.
  intros Hsane Hmiss result.
  destruct (getDailyTimeSeries_miss_path symbol w Hsane Hmiss)
    as (lines & _ & _ & _ & Hres).
  rewrite Hres. clear Hres.
  destruct (fetchOutcome symbol _) as [d|e] eqn:Hout; simpl.
  - apply fetchOutcome_returns in Hout as (status & body & Hr & He & Hn & Hd).
    split.
    + intros [= <-]. by exists status, body, d.
    + intros (status' & body' & d' & Hr' & _ & _ & Hd' & ->).
      rewrite Hr in Hr'. injection Hr' as <- <-.
      rewrite Hd in Hd'. by injection Hd' as <-.
  - split; [done|].
    intros (status & body & d & Hr & He & Hn & Hd & _).
    assert (fetchOutcome symbol (snd (provider w (toUpperCase symbol)))
            = Dispatcher.Returns d) as Habs
      by (apply fetchOutcome_returns; by exists status, body).
    congruence.
Qed.


(** A read of a symbol without a row, when the upsert is refused. *)
Lemma read_with_refused_upsert symbol w err :
  sane w -> upsertFault w = Some err ->
  stock_data_cache w !! (toUpperCase symbol, "TIME_SERIES_DAILY") = None ->
  let w' := snd (getDaily' symbol w) in
  sane w' /\ upsertFault w' = Some err /\
  stock_data_cache w' = stock_data_cache w /\
  length (Dispatcher.promises (dispatcher w')) =
    S (length (Dispatcher.promises (dispatcher w))).
Proof.
  intros Hsane Hup Hnone w'.
  assert (fst (getCached' symbol "TIME_SERIES_DAILY" w) = Ok None) as Hmiss
    by (apply getCachedStockData_miss; auto).
  destruct (getDailyTimeSeries_miss_path symbol w Hsane Hmiss)
    as (lines & _ & Hlen & Hsane3 & Hres).
  unfold w'. rewrite Hres. clear Hres.
  destruct (fetchOutcome symbol _) as [d|e]; [|done].
  rewrite (cacheStockData_total toUpperCase).
  change (upsertFault (with_dispatcher _ _)) with (upsertFault w).
  by rewrite Hup.
Qed.

(** X23.  While the database refuses the upsert (as row-level security
    does for a role without an insert policy), the cache table stays as it
    is through any number of reads, and every read of a symbol that has no
    row submits a job: the provider is called once per read, however often
    the same symbol is read. *)
Theorem refused_cache_writes_cost_a_call_per_read symbols w err :
  sane w -> upsertFault w = Some err ->
  Forall (fun symbol =>
            stock_data_cache w !! (toUpperCase symbol, "TIME_SERIES_DAILY")
            = None) symbols ->
  let w' := reads toUpperCase parseFloat getTime symbols w in
  stock_data_cache w' = stock_data_cache w /\
  length (Dispatcher.promises (dispatcher w')) =
    length (Dispatcher.promises (dispatcher w)) + length symbols.
Proof.
  intros Hsane Hup Hnone. unfold reads. revert w Hsane Hup Hnone.
  induction symbols as [|symbol symbols IH]; intros w Hsane Hup Hnone; simpl.
  - split; [done|lia].
  - apply Forall_cons in Hnone as [Hhere Hrest].
    destruct (read_with_refused_upsert symbol w err Hsane Hup Hhere)
      as (Hsane' & Hup' & Hcache & Hlen).
    destruct (IH _ Hsane' Hup') as [Hcache' Hlen'].
    { eapply Forall_impl; [exact Hrest|]. simpl. intros s Hs.
      by rewrite Hcache. }
    rewrite Hcache', Hlen', Hcache, Hlen. split; [done|lia].
Qed.

End FetcherPaths.

Section FetcherPathExamples.
Import Js Fetcher.
Open Scope string_scope.

Abbreviation example_getDaily' :=
  (getDailyTimeSeries Symbols.asciiUpperCase decimal date_number).

(** A rate-limit note reaches the caller although the body has a series. *)
Lemma fetch_failure_reaches_the_caller_witness :
  exists w',
    example_getDaily' "msft" world_throttled = (Throw rate_limit_message, w') /\
    stock_data_cache w' = stock_data_cache world_throttled /\
    length (Dispatcher.promises (dispatcher w')) =
      S (length (Dispatcher.promises (dispatcher world_throttled))) /\
    last (console w') =
      Some (console_log
              ("Fetching fresh data for " ++ "msft" ++ " from Alpha Vantage")).
Proof.
  apply (fetch_failure_reaches_the_caller Symbols.asciiUpperCase decimal
           date_number "msft" world_throttled rate_limit_message).
  - apply idle_world_sane.
  - reflexivity.
  - reflexivity.
Defined.


(** The stale row of [world_stale] again: the provider's body is clean,
    and the read returns it. *)
Lemma read_returns_only_a_clean_series_witness :
  fst (example_getDaily' "aapl" world_stale) =
    Ok {| symbol := meta_symbol example_series;
          lastRefreshed := meta_lastRefreshed example_series;
          dailyData :=
            normalizeTimeSeriesData decimal date_number
              (timeSeriesDaily example_series);
          fromCache := false |}.
Proof.
  apply (read_returns_only_a_clean_series Symbols.asciiUpperCase decimal
           date_number "aapl" world_stale (idle_world_sane _ _ _ _ _ _)
           eq_refl).
  by eexists 200, _, example_series.
Defined.


(** Three reads of one symbol against the cache that refuses writes:
    three calls. *)
Lemma refused_cache_writes_cost_a_call_per_read_witness :
  let w' :=
    reads Symbols.asciiUpperCase decimal date_number ["aapl"; "AAPL"; "aapl"]
      world_readonly in
  stock_data_cache w' = stock_data_cache world_readonly /\
  length (Dispatcher.promises (dispatcher w')) =
    length (Dispatcher.promises (dispatcher world_readonly)) + 3.
Proof.
  apply (refused_cache_writes_cost_a_call_per_read Symbols.asciiUpperCase
           decimal date_number ["aapl"; "AAPL"; "aapl"] world_readonly
           {| code := "42501";
              message := "new row violates row-level security policy" |}
           (idle_world_sane _ _ _ _ _ _) eq_refl).
  repeat constructor.
Defined.

End FetcherPathExamples.

(** ** The normalizer: [Object.entries], [map], [sort] *)
Section NormalizerFacts.
Import Js Fetcher.
Open Scope string_scope.
Context (parseFloat : string -> float) (getTime : string -> float).

Lemma adjacent_cons {A} (R : A -> A -> Prop) (x : A) (l : list A) :
  Dispatcher.adjacent R (x :: l) <->
  (forall y, head l = Some y -> R x y) /\ Dispatcher.adjacent R l.
Proof.
  split.
  - intros Hadj. split.
    + intros y Hy. destruct l as [|y' l]; [done|]. injection Hy as ->.
      by apply (Hadj 0).
    + intros i a b Ha Hb. by apply (Hadj (S i)).
  - intros [Hhd Htl] [|i] a b Ha Hb; simpl in *.
    + injection Ha as ->. apply Hhd. by destruct l.
    + by apply (Htl i).
Qed.

Lemma insert_sorted_perm {A} (comparefn : A -> A -> float) a (l : list A) :
  insert_sorted comparefn a l ≡ₚ a :: l.
Proof.
  induction l as [|b l IH]; simpl; [done|].
  destruct (0 <? comparefn a b)%float; [|done].
  by rewrite IH, Permutation_swap.
Qed.

Lemma sort_perm {A} (comparefn : A -> A -> float) (l : list A) :
  sort comparefn l ≡ₚ l.
Proof.
  induction l as [|a l IH]; simpl; [done|].
  fold (sort comparefn l). by rewrite insert_sorted_perm, IH.
Qed.

Lemma head_insert_sorted {A} (comparefn : A -> A -> float) a (l : list A) :
  head (insert_sorted comparefn a l) = Some a \/
  head (insert_sorted comparefn a l) = head l.
Proof.
  destruct l as [|b l]; simpl; [by left|].
  destruct (0 <? comparefn a b)%float; [by right|by left].
Qed.

(** Inserting into a list in which no element is followed by one that the
    comparator puts before it gives such a list again, for a comparator
    that is positive in at most one direction. *)
Lemma insert_sorted_adjacent {A} (comparefn : A -> A -> float) a (l : list A) :
  (forall x y, (0 <? comparefn x y)%float = true ->
               (0 <? comparefn y x)%float = false) ->
  Dispatcher.adjacent (fun x y => (0 <? comparefn x y)%float = false) l ->
  Dispatcher.adjacent (fun x y => (0 <? comparefn x y)%float = false)
    (insert_sorted comparefn a l).
Proof.
  intros Hone. induction l as [|b l IH]; intros Hadj; simpl.
  - by intros [|i] x y Hx Hy.
  - destruct (0 <? comparefn a b)%float eqn:Hab.
    + apply adjacent_cons in Hadj as [Hhd Htl].
      apply adjacent_cons. split; [|by apply IH].
      intros y Hy.
      destruct (head_insert_sorted comparefn a l) as [Ha|Hl].
      * rewrite Ha in Hy. injection Hy as <-. by apply Hone.
      * apply Hhd. by rewrite <- Hl.
    + apply adjacent_cons. split; [|done].
      intros y [= <-]. done.
Qed.

(** X9.  [normalizeTimeSeriesData] returns the entries of the series, each
    once and with its five fields parsed, rearranged so that no entry is
    directly followed by one that the comparator puts before it: for
    neighbours [a], [b] of the result,
    [new Date(b.date).getTime() - new Date(a.date).getTime()] is not
    positive. *)
Theorem normalized_series_is_sorted_input (timeSeries : TimeSeriesData) :
  let result := normalizeTimeSeriesData parseFloat getTime timeSeries in
  result ≡ₚ
    map (fun entry : string * RawDay =>
           {| Insights.date := fst entry;
              Insights.open := parseFloat (raw_open (snd entry));
              Insights.high := parseFloat (raw_high (snd entry));
              Insights.low := parseFloat (raw_low (snd entry));
              Insights.close := parseFloat (raw_close (snd entry));
              Insights.volume := parseFloat (raw_volume (snd entry)) |})
        timeSeries /\
  Dispatcher.adjacent
    (fun a b =>
       (0 <? getTime (Insights.date b) - getTime (Insights.date a))%float
       = false)
    result.
Proof.
  intros result. unfold result, normalizeTimeSeriesData. split.
  - rewrite sort_perm.
    match goal with
    | |- ?l ≡ₚ ?r =>
        assert (l = r) as -> by (apply map_ext; by intros [date values])
    end.
    done.
  - set (l := map _ timeSeries). clearbody l.
    induction l as [|a l IH]; simpl; [by intros [|i] x y Hx Hy|].
    apply (insert_sorted_adjacent (byDateDescending getTime)); [|exact IH].
    intros x y. apply sub_positive_one_way.
Qed.

End NormalizerFacts.

(** ** The stock card: what a load leaves on the screen *)
Section CardFacts.
Import Js Fetcher Card.
Open Scope string_scope.
Context (toUpperCase : string -> string).
Context (parseFloat : string -> float) (getTime : string -> float).

Abbreviation load := (loadStockData toUpperCase parseFloat getTime).
Abbreviation read := (getDailyTimeSeries toUpperCase parseFloat getTime).

Lemma calculateInsights_nonempty symbol series :
  series <> [] ->
  exists shown,
    Insights.calculateInsights parseFloat symbol series None = Ok shown /\
    Insights.symbol shown = symbol.
Proof.
  intros Hne. destruct series as [|latest rest]; [done|].
  destruct (calculateInsights_returns parseFloat symbol
              (latest :: rest) None latest rest eq_refl)
    as (change & week & month & _ & _ & _ & ->).
  eauto.
Qed.

(** X12.  [loadStockData] does not throw, and always ends with [loading]
    cleared.  When the read throws, the message is in [error] and the
    insights shown before stay in their cell.  When the read returns an
    empty series, [error] is the engine's [No data available to calculate
    insights].  When it returns a series with an entry, [error] is empty,
    and the card shows insights for the stock's symbol with the read's
    [fromCache]. *)
Theorem card_ends_with_the_error_or_the_insights symbol card w :
  let after := fst (load symbol card w) in
  loading after = false /\
  match fst (read symbol w) with
  | Throw message =>
      error after = message /\ insights after = insights card /\
      Card.fromCache after = Card.fromCache card
  | Ok data =>
      (dailyData data = [] ->
       error after = "No data available to calculate insights" /\
       insights after = insights card) /\
      (dailyData data <> [] ->
       exists shown,
         Insights.symbol shown = symbol /\
         after = {| insights := Some shown; loading := false; error := "";
                    Card.fromCache := Fetcher.fromCache data |} /\
         render after = Panel shown (Fetcher.fromCache data))
  end.
Proof.
  intros after. unfold after, loadStockData.
  destruct (read symbol w) as [[data|message] w']; simpl; [|done].
  destruct (dailyData data) as [|latest rest] eqn:Hseries.
  - simpl. split; [done|]. split; [done|]. by intros [].
  - destruct (calculateInsights_nonempty symbol (latest :: rest)
                ltac:(done)) as (shown & -> & Hsym).
    simpl. split; [done|]. split; [done|]. intros _. by exists shown.
Qed.


End CardFacts.

Section CardExamples.
Import Js Fetcher Card.
Open Scope string_scope.


End CardExamples.

(** ** Symbol validation *)
Section SymbolFacts.
Import Symbols.
Open Scope string_scope.

Lemma match_repeat_spec rs input : forall lo hi,
  match_repeat rs lo hi input = true <->
  (lo <= String.length input <= hi /\
   forall c, In c (list_ascii_of_string input) -> in_ranges c rs = true).
Proof.
  induction input as [|c rest IH]; intros lo hi; simpl.
  - rewrite Nat.eqb_eq. split.
    + intros ->. split; [lia | tauto].
    + intros [? _]. lia.
  - destruct hi as [|hi].
    + split; [discriminate | intros [? _]; lia].
    + rewrite andb_true_iff, IH. split.
      * intros (Hc & Hlen & Hall). split; [lia|].
        intros c' [<-|Hin]; auto.
      * intros (Hlen & Hall). split; [by apply Hall; left|].
        split; [lia|]. intros c' Hin. apply Hall. by right.
Qed.

Lemma in_symbol_ranges c :
  in_ranges c (ranges symbolRegex) = true <-> symbol_char c.
Proof.
  unfold in_ranges, symbol_char. cbn [ranges symbolRegex existsb].
  rewrite orb_false_r, !orb_true_iff, !andb_true_iff, !Nat.leb_le.
  split.
  - intros [H|[H|H]]; [by left | by right; left | right; right].
    rewrite <- (ascii_nat_embedding c), <- (ascii_nat_embedding "."%char).
    f_equal. lia.
  - intros [H|[H| ->]]; [by left | by right; left | right; right; lia].
Qed.

Lemma validateSymbol_spec (toUpperCase : string -> string) (symbol : string) :
  validateSymbol toUpperCase symbol = true <->
  symbol_format (toUpperCase symbol).
Proof.
  unfold validateSymbol, test, symbol_format.
  rewrite match_repeat_spec. cbn [atLeast atMost symbolRegex].
  split; intros [Hlen Hall]; (split; [done|]);
    intros c Hin; apply in_symbol_ranges, Hall, Hin.
Qed.

(** C9. [validateSymbol] accepts a string exactly when its upper-cased form
    has one to ten characters, each an uppercase letter, a digit or a dot,
    and rejects every other string; this holds whatever [toUpperCase] does
    to the string. *)
Theorem validateSymbol_accepts_exactly_the_format
    (toUpperCase : string -> string) (symbol : string) :
  (validateSymbol toUpperCase symbol = true <->
   symbol_format (toUpperCase symbol)) /\
  (validateSymbol toUpperCase symbol = false <->
   ~ symbol_format (toUpperCase symbol)).
Proof.
  split; [apply validateSymbol_spec|].
  rewrite <- validateSymbol_spec.
  by destruct (validateSymbol toUpperCase symbol).
Qed.

Example validateSymbol_examples :
  validateSymbol asciiUpperCase "brk.a" = true /\
  validateSymbol asciiUpperCase "AAPL" = true /\
  validateSymbol asciiUpperCase "" = false /\
  validateSymbol asciiUpperCase "ABCDEFGHIJ" = true /\
  validateSymbol asciiUpperCase "ABCDEFGHIJK" = false /\
  validateSymbol asciiUpperCase "AB CD" = false.
Proof. repeat split. Qed.

End SymbolFacts.

(** ** Environment configuration *)
Section ConfigFacts.
Import Js Config.
Open Scope string_scope.
Context (trim : string -> string) (env : gmap string string).

Lemma getRequiredEnv_spec key :
  match getRequiredEnv trim env key with
  | Ok value => env !! key = Some value /\ configured trim env key
  | Throw message => ~ configured trim env key /\ message = missing key
  end.
Proof.
  unfold getRequiredEnv, configured.
  destruct (env !! key) as [value|] eqn:Hkey.
  - destruct (String.eqb_spec value "") as [->|Hvalue]; simpl.
    + split; [|done]. intros (v & [= <-] & Hv & _). done.
    + destruct (String.eqb_spec (trim value) "") as [Hblank|Htrim].
      * split; [|done]. intros (v & [= <-] & _ & Hv). done.
      * split; [done|]. by exists value.
  - split; [|done]. by intros (v & [=] & _).
Qed.

(** X14.  [loadConfig] returns exactly when the three variables are all
    defined and none is empty or blank; the configuration then holds their
    values as they are, untrimmed.  Otherwise it throws the error that
    names the first variable, in the order URL, anon key, API key, that is
    missing or blank. *)
Theorem loadConfig_fails_on_the_first_missing_variable :
  match loadConfig trim env with
  | Ok config =>
      Forall (configured trim env) required /\
      env !! "VITE_SUPABASE_URL" = Some (url (supabase config)) /\
      env !! "VITE_SUPABASE_ANON_KEY" = Some (anonKey (supabase config)) /\
      env !! "VITE_ALPHA_VANTAGE_API_KEY" = Some (apiKey (alphaVantage config))
  | Throw message =>
      exists before key after,
        required = (before ++ key :: after)%list /\
        Forall (configured trim env) before /\
        ~ configured trim env key /\
        message = missing key
  end.
Proof.
  unfold loadConfig, required.
  pose proof (getRequiredEnv_spec "VITE_SUPABASE_URL") as H1.
  pose proof (getRequiredEnv_spec "VITE_SUPABASE_ANON_KEY") as H2.
  pose proof (getRequiredEnv_spec "VITE_ALPHA_VANTAGE_API_KEY") as H3.
  destruct (getRequiredEnv trim env "VITE_SUPABASE_URL") as [v1|m1];
    simpl; [destruct H1 as [E1 C1]|destruct H1 as [N1 ->]].
  2: { by eexists [], "VITE_SUPABASE_URL", [_; _]. }
  destruct (getRequiredEnv trim env "VITE_SUPABASE_ANON_KEY") as [v2|m2];
    simpl; [destruct H2 as [E2 C2]|destruct H2 as [N2 ->]].
  2: { eexists [_], "VITE_SUPABASE_ANON_KEY", [_].
       repeat split; [by repeat constructor|done]. }
  destruct (getRequiredEnv trim env "VITE_ALPHA_VANTAGE_API_KEY") as [v3|m3];
    simpl; [destruct H3 as [E3 C3]|destruct H3 as [N3 ->]].
  2: { eexists [_; _], "VITE_ALPHA_VANTAGE_API_KEY", [].
       repeat split; [by repeat constructor|done]. }
  repeat split; try done. by repeat constructor.
Qed.

End ConfigFacts.

(** With a blank anon key and no API key, the error names the anon key. *)
Example env_incomplete_fails :
  Config.loadConfig Config.asciiTrim Config.env_incomplete =
  Js.Throw (Config.missing "VITE_SUPABASE_ANON_KEY").
Proof. reflexivity. Qed.

(** ** The watchlist and the form that fills it *)
Section WatchlistFacts.
Import Js Watchlist.
Open Scope string_scope.
Context (toUpperCase : string -> string).
Context (describe : Violation -> string).
Hypothesis toUpperCase_idempotent :
  forall s, toUpperCase (toUpperCase s) = toUpperCase s.

Abbreviation add := (addUserStock toUpperCase describe).

Lemma existsb_listed user s rows :
  existsb (listed user s) rows = true <->
  exists row, In row rows /\ user_id row = user /\ symbol row = s.
Proof.
  rewrite existsb_exists. unfold listed. split.
  - intros (row & Hin & [Hu Hs]%andb_true_iff).
    apply String.eqb_eq in Hu, Hs. eauto.
  - intros (row & Hin & <- & <-). exists row.
    by rewrite !String.eqb_refl.
Qed.

(** What an insert does. *)
Lemma insert_spec user s b :
  match insert user s b with
  | (inl row, b') =>
      String.length s <= 10 /\
      (forall other, In other (user_stocks b) ->
                     user_id other = user -> symbol other <> s) /\
      row = {| id := nextId b; user_id := user; symbol := s;
               added_at := clock b |} /\
      b' = {| user_stocks := user_stocks b ++ [row];
              currentUser := currentUser b; clock := clock b;
              nextId := N.succ (nextId b) |}
  | (inr too_long, b') => 10 < String.length s /\ b' = b
  | (inr duplicate_key, b') =>
      String.length s <= 10 /\ b' = b /\
      exists other, In other (user_stocks b) /\
                    user_id other = user /\ symbol other = s
  end.
Proof.
  unfold insert.
  destruct (Nat.ltb_spec 10 (String.length s)) as [Hlong|Hfits]; [done|].
  destruct (existsb (listed user s) (user_stocks b)) eqn:Hdup.
  - by apply existsb_listed in Hdup.
  - repeat split; try done.
    intros other Hin Hu Hs.
    assert (existsb (listed user s) (user_stocks b) = true) as Habs
      by (apply existsb_listed; eauto).
    congruence.
Qed.

Lemma valid_empty : valid toUpperCase empty.
Proof. repeat split; simpl; constructor. Qed.

Lemma valid_as_user user b : valid toUpperCase b -> valid toUpperCase (as_user user b).
Proof. done. Qed.

Lemma valid_addUserStock s b :
  valid toUpperCase b -> valid toUpperCase (snd (add s b)).
Proof using Type*.
  intros (Hpairs & Hids & Hrows). unfold addUserStock.
  destruct (currentUser b) as [user|]; [|done].
  pose proof (insert_spec user (toUpperCase s) b) as Hins.
  destruct (insert user (toUpperCase s) b) as [[row|[]] b']; simpl.
  - destruct Hins as (Hlen & Hnew & -> & ->). unfold valid; simpl.
    rewrite !map_app, !NoDup_app. simpl. repeat split.
    + done.
    + intros pair Hin ->%list_elem_of_singleton.
      apply list_elem_of_In, in_map_iff in Hin as (other & [= Hu Hs] & Hin).
      by apply (Hnew other).
    + apply NoDup_singleton.
    + done.
    + intros i Hin ->%list_elem_of_singleton.
      apply list_elem_of_In, in_map_iff in Hin as (other & Hid & Hin).
      rewrite Forall_forall in Hrows.
      apply list_elem_of_In, Hrows in Hin as [Hlt _]. lia.
    + apply NoDup_singleton.
    + apply Forall_app. split.
      * eapply Forall_impl; [exact Hrows|]. simpl. intros r (? & ? & ?).
        repeat split; [lia|done|done].
      * constructor; [|done]. simpl. repeat split; [lia|done|done].
  - by destruct Hins as [_ ->].
  - by destruct Hins as (_ & -> & _).
Qed.

Lemma NoDup_map_filter {A B} (f : A -> B) (p : A -> bool) (l : list A) :
  NoDup (map f l) -> NoDup (map f (List.filter p l)).
Proof.
  induction l as [|a l IH]; simpl; [done|].
  intros [Hnotin Hnd]%NoDup_cons. destruct (p a); simpl; [|by auto].
  apply NoDup_cons. split; [|by auto].
  intros Hin. apply Hnotin.
  apply list_elem_of_In, in_map_iff in Hin as (x & <- & [Hx _]%filter_In).
  apply list_elem_of_In, in_map_iff. eauto.
Qed.

Lemma valid_removeUserStock stockId b :
  valid toUpperCase b -> valid toUpperCase (snd (removeUserStock stockId b)).
Proof.
  intros (Hpairs & Hids & Hrows). unfold valid, removeUserStock; simpl.
  repeat split; [by apply NoDup_map_filter..|].
  rewrite Forall_forall in Hrows. apply Forall_forall.
  intros row [Hin _]%list_elem_of_In%filter_In.
  by apply Hrows, list_elem_of_In.
Qed.

Lemma valid_history calls : valid toUpperCase (history toUpperCase describe calls).
Proof using Type*.
  unfold history. generalize valid_empty. generalize empty.
  induction calls as [|c calls IH]; intros b Hb; simpl; [done|].
  apply IH. destruct c as [user s|user stockId|ms].
  - by apply (valid_addUserStock s (as_user user b)).
  - by apply (valid_removeUserStock stockId (as_user user b)).
  - done.
Qed.

Lemma NoDup_map_inj {A B} (f : A -> B) (l : list A) x y :
  NoDup (map f l) -> In x l -> In y l -> f x = f y -> x = y.
Proof.
  induction l as [|a l IH]; simpl; [done|].
  intros [Hnotin Hnd]%NoDup_cons [->|Hx] [->|Hy] Hf; try done.
  - exfalso. apply Hnotin. rewrite Hf.
    apply list_elem_of_In, in_map_iff. eauto.
  - exfalso. apply Hnotin. rewrite <- Hf.
    apply list_elem_of_In, in_map_iff. eauto.
  - by apply IH.
Qed.

(** X15.  Whatever is added and removed, by whichever users and in
    whichever letter case, no user's watchlist holds a symbol twice: two
    rows of the same user whose symbols agree up to case are the same row.
    Every stored symbol is in upper case and has at most ten characters.
    ([toUpperCase] is idempotent.) *)
Theorem watchlist_never_holds_a_symbol_twice (calls : list Call) :
  let rows := user_stocks (history toUpperCase describe calls) in
  (forall r1 r2, In r1 rows -> In r2 rows ->
     user_id r1 = user_id r2 ->
     toUpperCase (symbol r1) = toUpperCase (symbol r2) -> r1 = r2) /\
  (forall row, In row rows ->
     toUpperCase (symbol row) = symbol row /\ String.length (symbol row) <= 10).
Proof using Type*.
  intros rows. destruct (valid_history calls) as (Hpairs & _ & Hrows).
  fold rows in Hpairs, Hrows. rewrite Forall_forall in Hrows. split.
  - intros r1 r2 H1 H2 Hu Hs.
    apply (NoDup_map_inj _ _ _ _ Hpairs H1 H2).
    apply list_elem_of_In, Hrows in H1 as (_ & _ & E1).
    apply list_elem_of_In, Hrows in H2 as (_ & _ & E2).
    rewrite <- E1, <- E2. by f_equal.
  - intros row Hin. by apply list_elem_of_In, Hrows in Hin as (_ & ? & ?).
Qed.

(** X16.  For a signed-in user, a symbol that passes [validateSymbol] fits
    the column: [addUserStock] stores it in upper case under the user's id,
    or fails because the user has that symbol already; it does not fail
    for length. *)
Theorem validated_symbol_fits_the_column s user b :
  Symbols.validateSymbol toUpperCase s = true ->
  currentUser b = Some user ->
  match add s b with
  | (Ok row, b') =>
      user_id row = user /\ symbol row = toUpperCase s /\
      user_stocks b' = (user_stocks b ++ [row])%list
  | (Throw message, b') =>
      message = describe duplicate_key /\ b' = b /\
      exists other, In other (user_stocks b) /\
                    user_id other = user /\ symbol other = toUpperCase s
  end.
Proof.
  intros [[_ Hlen] _]%validateSymbol_spec Huser.
  unfold addUserStock. rewrite Huser.
  pose proof (insert_spec user (toUpperCase s) b) as Hins.
  destruct (insert user (toUpperCase s) b) as [[row|[]] b'].
  - destruct Hins as (_ & _ & -> & ->). done.
  - destruct Hins as [Hlong _]. lia.
  - destruct Hins as (_ & -> & Hother). done.
Qed.

Lemma filter_all {A} (p : A -> bool) (l : list A) :
  (forall a, In a l -> p a = true) -> List.filter p l = l.
Proof.
  induction l as [|a l IH]; simpl; [done|]. intros Hall.
  rewrite (Hall a) by auto. f_equal. auto.
Qed.

Lemma remove_one stockId (mine : UserStock -> bool) rows :
  NoDup (map id rows) ->
  length rows <=
  S (length (List.filter
               (fun row => negb ((id row =? stockId)%N && mine row)) rows)).
Proof.
  induction rows as [|row rows IH]; simpl; [lia|].
  intros [Hnotin Hnd]%NoDup_cons.
  destruct (N.eqb_spec (id row) stockId) as [Hid|Hid]; simpl.
  - destruct (mine row); simpl; [|specialize (IH Hnd); lia].
    rewrite filter_all; [done|].
    intros other Hin. destruct (N.eqb_spec (id other) stockId) as [Ho|]; [|done].
    exfalso. apply Hnotin. rewrite Hid, <- Ho.
    apply list_elem_of_In, in_map_iff. eauto.
  - specialize (IH Hnd). lia.
Qed.

(** X20.  [removeUserStock] takes away at most one row: the one with the
    given id, and only when it belongs to the user of the session.  The
    rows of other users, and every row when nobody is signed in, stay. *)
Theorem remove_takes_the_own_row_only (calls : list Call) user stockId :
  let b := as_user user (history toUpperCase describe calls) in
  let b' := snd (removeUserStock stockId b) in
  (forall row,
     In row (user_stocks b') <->
     In row (user_stocks b) /\
     ~ (id row = stockId /\ Some (user_id row) = user)) /\
  length (user_stocks b) <= S (length (user_stocks b')).
Proof using Type*.
  intros b b'. destruct (valid_history calls) as (_ & Hids & _). split.
  - intros row. unfold b', removeUserStock. simpl. rewrite filter_In.
    apply and_iff_compat_l. rewrite negb_true_iff, andb_false_iff.
    destruct (N.eqb_spec (id row) stockId) as [Hid|Hid];
      destruct user as [u|]; simpl.
    + destruct (String.eqb_spec (user_id row) u) as [->|Hu].
      * split; [by intros [|]|]. intros Hno. exfalso. by apply Hno.
      * split; [|by right]. intros _ [_ [= ?]]. done.
    + split; [|by right]. by intros _ [_ ?].
    + split; [|by left]. by intros _ [? _].
    + split; [|by left]. by intros _ [? _].
  - unfold b', removeUserStock. simpl. by apply remove_one.
Qed.

End WatchlistFacts.

Section AddStockFacts.
Import Js Watchlist AddStock.
Open Scope string_scope.
Context (trim : string -> string) (toUpperCase : string -> string).
Context (describe : Violation -> string).

Abbreviation addStock := (handleAddStock toUpperCase describe).
Abbreviation submit := (handleSubmit trim toUpperCase describe).

(** What [handleAddStock] does to the table. *)
Lemma handleAddStock_table selected form b :
  let after := addStock selected form b in
  user_stocks (snd after) = user_stocks b \/
  exists row user,
    currentUser b = Some user /\
    user_stocks (snd after) = (user_stocks b ++ [row])%list /\
    user_id row = user /\ Watchlist.symbol row = toUpperCase selected.
Proof.
  unfold handleAddStock, addUserStock.
  destruct (currentUser b) as [user|] eqn:Huser; [|by left].
  pose proof (insert_spec user (toUpperCase selected) b) as Hins.
  destruct (insert user (toUpperCase selected) b) as [[row|[]] b']; simpl.
  - destruct Hins as (_ & _ & -> & ->). right. by eexists _, user.
  - destruct Hins as [_ ->]. by left.
  - destruct Hins as (_ & -> & _). by left.
Qed.

(** X17.  After a user has added a symbol, adding it again, in any letter
    case, changes nothing in the table and puts [You already have this
    stock in your watchlist] in the form's error cell, provided the
    message of the database for the violated constraint contains
    [duplicate], as PostgreSQL's does. *)
Theorem same_symbol_again_is_reported_as_listed s s' form b row b1 :
  includes (describe duplicate_key) "duplicate" = true ->
  toUpperCase s' = toUpperCase s ->
  addUserStock toUpperCase describe s b = (Ok row, b1) ->
  addStock s' form b1 =
    ({| AddStock.symbol := AddStock.symbol form;
        searchResults := searchResults form; loading := false;
        error := "You already have this stock in your watchlist";
        success := ""; showResults := false |}, b1).
Proof.
  intros Hmessage Hcase. unfold handleAddStock, addUserStock.
  destruct (currentUser b) as [user|] eqn:Huser; [|done].
  pose proof (insert_spec user (toUpperCase s) b) as Hins.
  destruct (insert user (toUpperCase s) b) as [[row0|violation] b0];
    [|done].
  destruct Hins as (Hlen & _ & Hrow & Hb0). intros [= <- <-].
  assert (currentUser b0 = Some user) as -> by (by rewrite Hb0).
  rewrite Hcase.
  pose proof (insert_spec user (toUpperCase s) b0) as Hagain.
  destruct (insert user (toUpperCase s) b0) as [[row1|[]] b2].
  - destruct Hagain as (_ & Hnew & _). exfalso.
    apply (Hnew row0); [|by rewrite Hrow..].
    rewrite Hb0. simpl. apply in_or_app. right. by left.
  - destruct Hagain as [Hlong _]. lia.
  - destruct Hagain as (_ & -> & _). by rewrite Hmessage.
Qed.

(** X18.  Submitting the form adds at most one row, for the user of the
    session, and its symbol is the input trimmed and in upper case.  A row
    is added only when that symbol is not empty and either has the valid
    format or is, up to case, the symbol of one of the search results: a
    blank input, or one of invalid format that matches no search result,
    never reaches the table.  ([toUpperCase] is idempotent.) *)
Theorem submit_adds_only_the_trimmed_symbol form b :
  (forall s, toUpperCase (toUpperCase s) = toUpperCase s) ->
  let trimmedSymbol := toUpperCase (trim (AddStock.symbol form)) in
  let after := submit form b in
  user_stocks (snd after) = user_stocks b \/
  exists row user,
    currentUser b = Some user /\
    user_stocks (snd after) = (user_stocks b ++ [row])%list /\
    user_id row = user /\ Watchlist.symbol row = trimmedSymbol /\
    trimmedSymbol <> "" /\
    (Symbols.symbol_format trimmedSymbol \/
     exists r, In r (searchResults form) /\
               toUpperCase (Search.symbol r) = trimmedSymbol).
Proof.
  intros Hidem trimmedSymbol after. unfold after, handleSubmit.
  fold trimmedSymbol.
  destruct (String.eqb_spec trimmedSymbol "") as [Hblank|Hfilled]; [by left|].
  destruct (find _ (searchResults form)) as [exactMatch|] eqn:Hfind.
  - apply find_some in Hfind as [Hin Hsame%String.eqb_eq].
    destruct (handleAddStock_table (Search.symbol exactMatch) form b)
      as [Hnone|(row & user & Huser & Htable & Hu & Hs)]; [by left|].
    right. exists row, user. rewrite Hsame in Hs.
    repeat split; try done. right. eauto.
  - destruct (Symbols.validateSymbol toUpperCase trimmedSymbol) eqn:Hvalid;
      simpl; [|by left].
    destruct (handleAddStock_table trimmedSymbol form b)
      as [Hnone|(row & user & Huser & Htable & Hu & Hs)]; [by left|].
    right. exists row, user.
    apply validateSymbol_spec in Hvalid.
    unfold trimmedSymbol in Hs, Hvalid. rewrite Hidem in Hs, Hvalid.
    repeat split; try done. by left.
Qed.

End AddStockFacts.

Section WatchlistExamples.
Import Js Watchlist AddStock.
Open Scope string_scope.

Lemma upper_idempotent c : Symbols.upper (Symbols.upper c) = Symbols.upper c.
Proof. by destruct c as [[] [] [] [] [] [] [] []]. Qed.

Lemma asciiUpperCase_idempotent s :
  Symbols.asciiUpperCase (Symbols.asciiUpperCase s) = Symbols.asciiUpperCase s.
Proof.
  induction s as [|c s IH]; simpl; [done|].
  by rewrite upper_idempotent, IH.
Qed.

Example busy_week_rows :
  map (fun row => (id row, user_id row, Watchlist.symbol row))
      (user_stocks (history Symbols.asciiUpperCase postgres busy_week))
  = [(0%N, "ada", "AAPL"); (1%N, "bob", "AAPL"); (2%N, "ada", "MSFT")].
Proof. reflexivity. Qed.

Lemma watchlist_never_holds_a_symbol_twice_witness :
  let rows := user_stocks (history Symbols.asciiUpperCase postgres busy_week) in
  (forall r1 r2, In r1 rows -> In r2 rows ->
     user_id r1 = user_id r2 ->
     Symbols.asciiUpperCase (Watchlist.symbol r1) = Symbols.asciiUpperCase (Watchlist.symbol r2) ->
     r1 = r2) /\
  (forall row, In row rows ->
     Symbols.asciiUpperCase (Watchlist.symbol row) = Watchlist.symbol row /\
     String.length (Watchlist.symbol row) <= 10).
Proof.
  exact (watchlist_never_holds_a_symbol_twice Symbols.asciiUpperCase postgres
           asciiUpperCase_idempotent busy_week).
Defined.

Lemma remove_takes_the_own_row_only_witness :
  let b := as_user (Some "bob") (history Symbols.asciiUpperCase postgres busy_week) in
  let b' := snd (removeUserStock 0 b) in
  (forall row,
     In row (user_stocks b') <->
     In row (user_stocks b) /\
     ~ (id row = 0%N /\ Some (user_id row) = Some "bob")) /\
  length (user_stocks b) <= S (length (user_stocks b')).
Proof.
  exact (remove_takes_the_own_row_only Symbols.asciiUpperCase postgres
           asciiUpperCase_idempotent busy_week (Some "bob") 0%N).
Defined.

Lemma validated_symbol_fits_the_column_witness :
  match addUserStock Symbols.asciiUpperCase postgres "brk.a" ada_signed_in with
  | (Ok row, b') =>
      user_id row = "ada" /\ Watchlist.symbol row = Symbols.asciiUpperCase "brk.a" /\
      user_stocks b' = (user_stocks ada_signed_in ++ [row])%list
  | (Throw message, b') =>
      message = postgres duplicate_key /\ b' = ada_signed_in /\
      exists other, In other (user_stocks ada_signed_in) /\
                    user_id other = "ada" /\
                    Watchlist.symbol other = Symbols.asciiUpperCase "brk.a"
  end.
Proof.
  exact (validated_symbol_fits_the_column Symbols.asciiUpperCase postgres
           "brk.a" "ada" ada_signed_in eq_refl eq_refl).
Defined.

Lemma same_symbol_again_is_reported_as_listed_witness :
  handleAddStock Symbols.asciiUpperCase postgres "Aapl" (typed "Aapl" [])
    (snd (addUserStock Symbols.asciiUpperCase postgres "aapl" ada_signed_in))
  = ({| AddStock.symbol := "Aapl"; searchResults := []; loading := false;
        error := "You already have this stock in your watchlist";
        success := ""; showResults := false |},
     snd (addUserStock Symbols.asciiUpperCase postgres "aapl" ada_signed_in)).
Proof.
  exact (same_symbol_again_is_reported_as_listed Symbols.asciiUpperCase
           postgres "aapl" "Aapl" (typed "Aapl" []) ada_signed_in _ _
           eq_refl eq_refl eq_refl).
Defined.

Lemma submit_adds_only_the_trimmed_symbol_witness :
  let form := typed "  brk-b " brk_results in
  let trimmedSymbol :=
    Symbols.asciiUpperCase (Config.asciiTrim (AddStock.symbol form)) in
  let after :=
    handleSubmit Config.asciiTrim Symbols.asciiUpperCase postgres form
      ada_signed_in in
  user_stocks (snd after) = user_stocks ada_signed_in \/
  exists row user,
    currentUser ada_signed_in = Some user /\
    user_stocks (snd after) = (user_stocks ada_signed_in ++ [row])%list /\
    user_id row = user /\ Watchlist.symbol row = trimmedSymbol /\
    trimmedSymbol <> "" /\
    (Symbols.symbol_format trimmedSymbol \/
     exists r, In r (searchResults form) /\
               Symbols.asciiUpperCase (Search.symbol r) = trimmedSymbol).
Proof.
  exact (submit_adds_only_the_trimmed_symbol Config.asciiTrim
           Symbols.asciiUpperCase postgres (typed "  brk-b " brk_results)
           ada_signed_in asciiUpperCase_idempotent).
Defined.

(** The symbol [BRK-B] does not have the valid format, but it is a search
    result: typed on its own it is refused, typed with the results of its
    search on the screen it is added. *)
Example search_result_is_added_without_validation :
  Symbols.validateSymbol Symbols.asciiUpperCase "BRK-B" = false /\
  error (fst (handleSubmit Config.asciiTrim Symbols.asciiUpperCase postgres
                (typed "brk-b" []) ada_signed_in))
  = "Invalid symbol format" /\
  map Watchlist.symbol
    (user_stocks
       (snd (handleSubmit Config.asciiTrim Symbols.asciiUpperCase postgres
               (typed "brk-b" brk_results) ada_signed_in)))
  = ["BRK-B"].
Proof. repeat split. Qed.

End WatchlistExamples.
